(** * BlogMain.py: RSS ingestion, enrichment, upsert store and search

    A shallow embedding of [assets/pages/resources/blog/BlogMain.py].

    - Python [str] values are sequences of Unicode code points: [str] is
      [list N], one number per code point.  Literals of the source are
      written [lit "..."].
    - The table [blog_posts] is a list of rows in rowid order together with
      the AUTOINCREMENT counter kept in [sqlite_sequence].
    - The statements run by [fetch_blog_posts] and [search] thread a world
      (table, printed lines, SQL statements executed) through a small
      state-and-exception monad.
    - What the libraries decide and the source does not is taken as a
      class: [Unicode] for the Unicode database above U+007F, [Nlp] for
      TextBlob's polarity, spaCy's entities and [json.dumps] (the first
      two may raise), [Affinity] for SQLite's reading of numeric literals
      in the column [published_at]. *)

From Stdlib Require Import List NArith ZArith Bool Lia String Ascii.
From Stdlib Require Import Sorted.
Import ListNotations.

(* ================================================================= *)
(** ** Text: Python strings and the string operations the source uses *)

Module Text.

Local Open Scope N_scope.

Definition char := N.
Definition str := list char.

(** A source literal as code points. *)
Definition lit (s : string) : str :=
  List.map N_of_ascii (list_ascii_of_string s).

Fixpoint str_eqb (a b : str) : bool :=
  match a, b with
  | [], [] => true
  | x :: a', y :: b' => N.eqb x y && str_eqb a' b'
  | _, _ => false
  end.

(** The part of the Unicode database the source reaches through [str.strip],
    [str.lower] and the classes [\w] and [\s] of [re] on code points above
    U+007F.  Below U+0080 the functions are written out. *)
Class Unicode := {
  uni_isspace : char -> bool;
  uni_isalnum : char -> bool;
  uni_lower : char -> str
}.

Definition is_ascii (c : char) : bool := N.leb c 127.

(** The range the claim on stripping speaks of: U+0020 .. U+007E. *)
Definition is_printable_ascii (c : char) : bool :=
  N.leb 32 c && N.leb c 126.

Definition between (lo hi c : char) : bool := N.leb lo c && N.leb c hi.

Definition ascii_isupper (c : char) : bool := between 65 90 c.

(** ASCII folding: A-Z to a-z, anything else unchanged. *)
Definition ascii_tolower (c : char) : char :=
  if ascii_isupper c then c + 32 else c.

Section WithUnicode.
Context {U : Unicode}.

(** [str.isspace] on one code point; also the class [\s] of a str pattern. *)
Definition isspace (c : char) : bool :=
  if is_ascii c then between 9 13 c || between 28 32 c
  else uni_isspace c.

Definition isalnum (c : char) : bool :=
  if is_ascii c then between 48 57 c || between 65 90 c || between 97 122 c
  else uni_isalnum c.

(** The class [\w] of a str pattern: alphanumeric or underscore. *)
Definition isword (c : char) : bool := isalnum c || N.eqb c 95.

Definition lower_char (c : char) : str :=
  if is_ascii c then [ascii_tolower c] else uni_lower c.

(** [text.lower()], code point by code point.  The one caller hands over
    text already stripped to ASCII, where this is all there is to it. *)
Definition lower (s : str) : str := flat_map lower_char s.

Fixpoint lstrip (s : str) : str :=
  match s with
  | [] => []
  | c :: s' => if isspace c then lstrip s' else s
  end.

(** [s.strip()]: leading and trailing whitespace removed. *)
Definition strip (s : str) : str := rev (lstrip (rev (lstrip s))).

(** [re.sub(r'[^\w\s]', '', s)]: every code point that is neither a word
    character nor whitespace is deleted. *)
Definition re_sub_non_word_space (s : str) : str :=
  filter (fun c => isword c || isspace c) s.

End WithUnicode.

(** [re.sub(r'[^\x00-\x7F]+', '', s)]: every run of code points above
    U+007F is deleted. *)
Definition re_sub_non_ascii (s : str) : str := filter is_ascii s.

Fixpoint startswith (p s : str) : bool :=
  match p, s with
  | [], _ => true
  | _ :: _, [] => false
  | x :: p', y :: s' => N.eqb x y && startswith p' s'
  end.

(** [needle in hay] for two strings. *)
Fixpoint contains (needle hay : str) : bool :=
  startswith needle hay ||
  match hay with
  | [] => false
  | _ :: hay' => contains needle hay'
  end.

(** [sep.join(parts)]. *)
Fixpoint join (sep : str) (parts : list str) : str :=
  match parts with
  | [] => []
  | [p] => p
  | p :: rest => p ++ sep ++ join sep rest
  end.

End Text.

Import Text.

(* ================================================================= *)
(** ** Exceptions *)

Inductive exn :=
| TypeError
| ValueError
| OperationalError
| OtherException.

Inductive result (A : Type) :=
| Ok (a : A)
| Raised (e : exn).

Arguments Ok {A} a.
Arguments Raised {A} e.

(* ================================================================= *)
(** ** Enrichment: sentiment, sector, keywords *)

Module Enrich.

(** The four buckets built by [extract_keywords]. *)
Record Entities := {
  countries : list str;
  places : list str;
  names : list str;
  other_keywords : list str
}.

(** The NLP libraries: the sign of [TextBlob(text).sentiment.polarity]
    against 0, the [(label_, text)] pairs of [nlp(text).ents], and
    [json.dumps] of the four buckets.  The two analyses can raise: spaCy
    raises [ValueError] on a text longer than its [max_length], for
    one. *)
Class Nlp := {
  polarity : str -> result comparison;
  ents : str -> result (list (str * str));
  json_dumps : Entities -> str
}.

(** The table of [identify_sector], in the order the dict literal lists it. *)
Definition sectors : list (str * list str) :=
  [ (lit "Defense", [lit "military"; lit "army"; lit "navy"; lit "defense"]);
    (lit "Government",
       [lit "policy"; lit "election"; lit "government"; lit "minister"]);
    (lit "Sports", [lit "football"; lit "cricket"; lit "Olympics"; lit "sports"]);
    (lit "Crime", [lit "crime"; lit "murder"; lit "theft"; lit "fraud"]);
    (lit "Entertainment", [lit "movie"; lit "film"; lit "actor"; lit "celebrity"]);
    (lit "Financial", [lit "stocks"; lit "market"; lit "finance"; lit "investment"]);
    (lit "Energy", [lit "oil"; lit "gas"; lit "energy"; lit "renewable"]);
    (lit "Technology",
       [lit "cybersecurity"; lit "microsoft"; lit "network"; lit "data science";
        lit "machine learning"; lit "information technology"; lit "technology";
        lit "artificial intelligence"]) ].

(** [any(keyword in text_lower for keyword in keywords)]. *)
Definition any_keyword (text_lower : str) (keywords : list str) : bool :=
  existsb (fun keyword => contains keyword text_lower) keywords.

(** The [for sector, keywords in sectors.items()] loop over a table. *)
Fixpoint first_sector (table : list (str * list str)) (text_lower : str)
  : option str :=
  match table with
  | [] => None
  | (sector, keywords) :: table' =>
      if any_keyword text_lower keywords then Some sector
      else first_sector table' text_lower
  end.

Section WithPlatform.
Context {U : Unicode} {L : Nlp}.

Definition identify_sector (text : str) : str :=
  let text_lower := lower text in
  match first_sector sectors text_lower with
  | Some sector => sector
  | None => lit "General"
  end.

Definition analyze_sentiment (text : str) : result str :=
  match polarity text with
  | Ok Gt => Ok (lit "Positive")
  | Ok Lt => Ok (lit "Negative")
  | Ok Eq => Ok (lit "Neutral")
  | Raised e => Raised e
  end.

Definition label_in (label : str) (labels : list str) : bool :=
  existsb (str_eqb label) labels.

(** One turn of the [for ent in doc.ents] loop. *)
Definition add_entity (entities : Entities) (ent : str * str) : Entities :=
  let (label, text) := ent in
  if label_in label [lit "GPE"; lit "LOC"] then
    {| countries := countries entities;
       places := places entities ++ [text];
       names := names entities;
       other_keywords := other_keywords entities |}
  else if str_eqb label (lit "PERSON") then
    {| countries := countries entities;
       places := places entities;
       names := names entities ++ [text];
       other_keywords := other_keywords entities |}
  else if label_in label [lit "ORG"; lit "NORP"] then
    {| countries := countries entities ++ [text];
       places := places entities;
       names := names entities;
       other_keywords := other_keywords entities |}
  else
    {| countries := countries entities;
       places := places entities;
       names := names entities;
       other_keywords := other_keywords entities ++ [text] |}.

Definition extract_keywords (text : str) : result Entities :=
  match ents text with
  | Ok doc_ents =>
      Ok (fold_left add_entity doc_ents
            {| countries := []; places := []; names := [];
               other_keywords := [] |})
  | Raised e => Raised e
  end.

End WithPlatform.

End Enrich.

(* ================================================================= *)
(** ** Normalizer: [extract_feed_entry] *)

Module Normalizer.

Import Enrich.

(** A feedparser tag; [term] is [None] when the category element carries
    only a scheme or a label. *)
Record Tag := { term : option str }.

(** A feedparser entry: every field may be absent. *)
Record RawEntry := {
  e_title : option str;
  e_description : option str;
  e_author : option str;
  e_tags : option (list Tag);
  e_published : option str;
  e_link : option str
}.

(** The nine values [extract_feed_entry] returns, which are the nine
    columns the upsert writes. *)
Record Fields (D : Type) := {
  title : str;
  description : str;
  author : str;
  categories : str;
  sentiment : str;
  sector : str;
  keywords : str;
  published_at : D;
  link : str
}.

Arguments Build_Fields {D}.
Arguments title {D} _.
Arguments description {D} _.
Arguments author {D} _.
Arguments categories {D} _.
Arguments sentiment {D} _.
Arguments sector {D} _.
Arguments keywords {D} _.
Arguments published_at {D} _.
Arguments link {D} _.

(** In the tuple the normalizer returns all nine are strings; the type
    of the date is left open for the table, which keeps it in the form
    the column gives it. *)
Definition Post := Fields str.

(** [entry.get(key, default)] / [getattr(entry, key, default)]. *)
Definition get (field : option str) (default : str) : str :=
  match field with
  | Some v => v
  | None => default
  end.

(** The generator [tag.term for tag in tags] handed to [', '.join]:
    [join] raises [TypeError] on an item that is not a string. *)
Fixpoint terms (tags : list Tag) : result (list str) :=
  match tags with
  | [] => Ok []
  | t :: tags' =>
      match term t, terms tags' with
      | Some s, Ok rest => Ok (s :: rest)
      | None, _ => Raised TypeError
      | _, Raised e => Raised e
      end
  end.

(** [', '.join(...) if 'tags' in entry else "Uncategorized"]. *)
Definition categories_of (tags : option (list Tag)) : result str :=
  match tags with
  | Some ts =>
      match terms ts with
      | Ok l => Ok (join (lit ", ") l)
      | Raised e => Raised e
      end
  | None => Ok (lit "Uncategorized")
  end.

Section WithPlatform.
Context {U : Unicode} {L : Nlp}.

Definition extract_feed_entry (entry : RawEntry) : result Post :=
  let title := re_sub_non_ascii (get (e_title entry) (lit "No Title")) in
  let description :=
    re_sub_non_ascii (get (e_description entry) (lit "No Description")) in
  let author := get (e_author entry) (lit "Unknown Author") in
  match categories_of (e_tags entry) with
  | Raised e => Raised e
  | Ok categories =>
      let published_at := get (e_published entry) (lit "Unknown Date") in
      let link := get (e_link entry) (lit "No Link") in
      let text := title ++ lit " " ++ description in
      match analyze_sentiment text with
      | Raised e => Raised e
      | Ok sentiment =>
          let sector := identify_sector text in
          match extract_keywords text with
          | Raised e => Raised e
          | Ok keywords =>
              let keywords_str := json_dumps keywords in
              Ok {| title := title; description := description;
                    author := author; categories := categories;
                    sentiment := sentiment; sector := sector;
                    keywords := keywords_str;
                    published_at := published_at; link := link |}
          end
      end
  end.

End WithPlatform.

End Normalizer.

(* ================================================================= *)
(** ** Store: the table [blog_posts] and the two statements run on it

    The statements are SQL text in the source; what they do to the table
    is SQLite's reading of them, written out here. *)

Module Store.

Import Normalizer.

(** What the column [published_at] holds.  It is declared DATETIME, which
    gives it NUMERIC affinity: a string that is a well-formed numeric
    literal is stored as the number it denotes, any other string as
    text. *)
Inductive value :=
| TextValue (s : str)
| NumberValue (n : str).

Definition is_digit (c : char) : bool := between 48%N 57%N c.

(** The engine's reading of numeric literals: [None] for a string that
    is kept as text, and for a string that is a numeric literal the
    number stored, under one name per number ('1', '1.0', '01' and ' 1'
    are all the integer 1).  A numeric literal has a decimal digit in
    it. *)
Class Affinity := {
  numeric : str -> option str;
  numeric_digit : forall s, existsb is_digit s = false -> numeric s = None
}.

Definition value_eqb (a b : value) : bool :=
  match a, b with
  | TextValue x, TextValue y => str_eqb x y
  | NumberValue x, NumberValue y => str_eqb x y
  | _, _ => false
  end.

(** The nine columns of a row besides [id], as a SELECT returns them. *)
Definition Stored := Fields value.

(** One row: the AUTOINCREMENT [id] and the nine other columns. *)
Record Row := { row_id : Z; row_post : Stored }.

(** The table in rowid order, and its entry in [sqlite_sequence]: the
    largest rowid handed out so far.  Rowids are unbounded here; the
    ceiling of 2^63-1 is out of reach of the program. *)
Record Table := { rows : list Row; seq : Z }.

(** [init_db]: [DROP TABLE IF EXISTS] then [CREATE TABLE]. *)
Definition empty : Table := {| rows := []; seq := 0 |}.

(** The column under the UNIQUE constraint. *)
Definition key (r : Row) : value := published_at (row_post r).

Definition max_id (rs : list Row) : Z :=
  fold_right (fun r m => Z.max (row_id r) m) 0%Z rs.

Definition has_key (k : value) (rs : list Row) : bool :=
  existsb (fun r => value_eqb (key r) k) rs.

(** [DO UPDATE SET title = excluded.title, ..., link = excluded.link]:
    the eight listed columns are taken from the new values, [id] and
    [published_at] are the row's own. *)
Definition do_update (excluded : Post) (r : Row) : Row :=
  {| row_id := row_id r;
     row_post :=
       {| title := title excluded;
          description := description excluded;
          author := author excluded;
          categories := categories excluded;
          sentiment := sentiment excluded;
          sector := sector excluded;
          keywords := keywords excluded;
          published_at := published_at (row_post r);
          link := link excluded |} |}.

Section WithAffinity.
Context {A : Affinity}.

(** A string bound to the column [published_at], as the column takes
    it. *)
Definition affinity (s : str) : value :=
  match numeric s with
  | Some n => NumberValue n
  | None => TextValue s
  end.

(** The nine values bound to the INSERT, as the columns take them: the
    eight TEXT columns keep the string, [published_at] goes through its
    affinity. *)
Definition stored (p : Post) : Stored :=
  {| title := title p;
     description := description p;
     author := author p;
     categories := categories p;
     sentiment := sentiment p;
     sector := sector p;
     keywords := keywords p;
     published_at := affinity (published_at p);
     link := link p |}.

Definition update_rows (excluded : Post) (rs : list Row) : list Row :=
  map (fun r =>
         if value_eqb (key r) (affinity (published_at excluded))
         then do_update excluded r else r) rs.

(** [INSERT ... ON CONFLICT(published_at) DO UPDATE SET ...], with the
    [rowcount] the cursor reports.  The conflict is decided on the value
    the column would store.  SQLite draws the next rowid before it checks
    the constraint, so the counter moves on a conflict too; and an update
    counts as one changed row whatever the values written. *)
Definition upsert (t : Table) (p : Post) : Table * Z :=
  let new_id := (Z.max (seq t) (max_id (rows t)) + 1)%Z in
  if has_key (affinity (published_at p)) (rows t)
  then ({| rows := update_rows p (rows t); seq := new_id |}, 1%Z)
  else ({| rows := rows t ++ [{| row_id := new_id; row_post := stored p |}];
           seq := new_id |}, 1%Z).

End WithAffinity.

(** *** The LIKE operator *)

Local Open Scope N_scope.

Definition percent : char := 37.
Definition underscore : char := 95.

(** SQLite reads both operands of LIKE as NUL-terminated text. *)
Fixpoint c_str (s : str) : str :=
  match s with
  | [] => []
  | c :: s' => if N.eqb c 0 then [] else c :: c_str s'
  end.

(** One pattern character against one text character: [_] matches any
    character; otherwise the two are equal, or both are ASCII and equal
    after folding to lower case. *)
Definition like_char (c d : char) : bool :=
  N.eqb c underscore ||
  N.eqb c d ||
  (is_ascii c && is_ascii d && N.eqb (ascii_tolower c) (ascii_tolower d)).

(** [f] holds of some suffix of [t]. *)
Fixpoint any_suffix (f : str -> bool) (t : str) : bool :=
  f t ||
  match t with
  | [] => false
  | _ :: t' => any_suffix f t'
  end.

(** The pattern matcher of LIKE without ESCAPE: [%] matches any run of
    characters, [_] one character. *)
Fixpoint like_match (pattern text : str) : bool :=
  match pattern with
  | [] => match text with [] => true | _ :: _ => false end
  | c :: pattern' =>
      if N.eqb c percent then any_suffix (like_match pattern') text
      else
        match text with
        | [] => false
        | d :: text' => like_char c d && like_match pattern' text'
        end
  end.

(** [text LIKE pattern]. *)
Definition like (text pattern : str) : bool :=
  like_match (c_str pattern) (c_str text).

(** [WHERE title LIKE ? OR description LIKE ? OR categories LIKE ?]. *)
Definition where_like (p1 p2 p3 : str) (r : Row) : bool :=
  like (title (row_post r)) p1 ||
  like (description (row_post r)) p2 ||
  like (categories (row_post r)) p3.

(** The SELECT of [search]: the nine columns of the rows that pass the
    WHERE clause, in table order. *)
Definition select_like (t : Table) (p1 p2 p3 : str) : list Stored :=
  map row_post (filter (where_like p1 p2 p3) (rows t)).

End Store.

(* ================================================================= *)
(** ** World: what the handlers read and write *)

Module World.

Import Normalizer Store.

(** The lines the program prints. *)
Inductive line :=
| DatabaseRecreated
| RssFileNotFound (file_path : str)
| NoFeedUrls
| StartingFetch
| FetchingFeed (feed_url : str)
| ErrorParsingFeed (feed_url : str)
| UpdatedOrAdded (title : str)
| DatabaseOperationError
| CompletedFeed (feed_url : str) (new_posts : Z)
| FetchComplete (total_new_posts : Z)
| ErrorFetchingFeeds (e : exn)
| SearchPerformed (query : str).

(** The statements that reached the table. *)
Inductive statement :=
| DropCreate
| Upsert (p : Post)
| Select (p1 p2 p3 : str).

Record world := {
  db : Table;
  out : list line;
  executed : list statement
}.

(** State and exceptions: a computation ends in a value or in a raised
    exception, and in both cases leaves a world behind. *)
Definition M (A : Type) : Type := world -> result A * world.

Definition ret {A} (a : A) : M A := fun w => (Ok a, w).

Definition raise {A} (e : exn) : M A := fun w => (Raised e, w).

Definition bind {A B} (m : M A) (k : A -> M B) : M B :=
  fun w =>
    match m w with
    | (Ok a, w') => k a w'
    | (Raised e, w') => (Raised e, w')
    end.

(** [try: m except Exception as e: handler(e)]. *)
Definition try_except {A} (m : M A) (handler : exn -> M A) : M A :=
  fun w =>
    match m w with
    | (Ok a, w') => (Ok a, w')
    | (Raised e, w') => handler e w'
    end.

Definition lift {A} (r : result A) : M A := fun w => (r, w).

Definition print (l : line) : M unit :=
  fun w => (Ok tt, {| db := db w; out := out w ++ [l];
                      executed := executed w |}).

Definition run (s : statement) (t : Table) : M unit :=
  fun w => (Ok tt, {| db := t; out := out w;
                      executed := executed w ++ [s] |}).

Definition get_db : M Table := fun w => (Ok (db w), w).

End World.

Declare Scope monad_scope.
Delimit Scope monad_scope with monad.
Notation "x <- m ;; k" := (World.bind m (fun x => k))
  (at level 61, m at next level, right associativity) : monad_scope.
Notation "m ;; k" := (World.bind m (fun _ => k))
  (at level 61, right associativity) : monad_scope.

(* ================================================================= *)
(** ** FeedFile: [read_rss_feed_urls] *)

Module FeedFile.

Import World.
Local Open Scope monad_scope.

(** What [open(file_path, 'r')] and the iteration over the file give:
    [FileNotFoundError]; the lines of the file, each with its line end;
    or another exception (no permission, a directory, bytes that do not
    decode). *)
Inductive feed_file :=
| FileNotFound
| FileLines (lines : list str)
| FileRaises (e : exn).

(** The truth value of a string: false for the empty one. *)
Definition truthy (s : str) : bool :=
  match s with
  | [] => false
  | _ :: _ => true
  end.

Section WithUnicode.
Context {U : Unicode}.

(** [[line.strip() for line in file if line.strip()]]; the empty list and
    a printed line when the file is not there; any other exception is
    not caught. *)
Definition read_rss_feed_urls (file_path : str) (file : feed_file)
  : M (list str) :=
  match file with
  | FileLines lines =>
      ret (map strip (filter (fun line => truthy (strip line)) lines))
  | FileNotFound => print (RssFileNotFound file_path) ;; ret []
  | FileRaises e => raise e
  end.

End WithUnicode.

End FeedFile.

(* ================================================================= *)
(** ** Cycle: [init_db] and [fetch_blog_posts] *)

Module Cycle.

Import Enrich Normalizer Store World FeedFile.
Local Open Scope monad_scope.
Local Open Scope Z_scope.

Definition RSS_FEED_FILE : str := lit "RSSFeeds.txt".

(** What the storage engine does with one entry's statement: it runs and
    commits; [execute] raises [sqlite3.OperationalError]; [commit] does;
    or something is raised that the inner [except] does not catch
    ([connect] fails before the [try], or the engine raises an error that
    is not an [OperationalError]). *)
Inductive db_outcome :=
| DbOk
| DbExecuteFails
| DbCommitFails
| DbOtherFailure (e : exn).

(** One entry of a parsed feed with the engine's answer to its upsert. *)
Record entry_run := { raw : RawEntry; engine : db_outcome }.

(** What [feedparser.parse(feed_url)] does: it raises, or it returns a
    feed with its [bozo] flag and its entries. *)
Inductive parsed :=
| ParseRaises (e : exn)
| Parsed (bozo : bool) (entries : list entry_run).

(** One line of the feed file and what fetching it gives this cycle. *)
Record feed_run := { feed_url : str; fetched : parsed }.

Definition init_db : M unit :=
  run DropCreate Store.empty ;;
  print DatabaseRecreated.

Section WithPlatform.
Context {U : Unicode} {L : Nlp} {A : Affinity}.

(** The block under [with db_lock] for one entry: execute the upsert,
    count it when [rowcount > 0], commit; an [OperationalError] is printed
    and swallowed, and the connection is closed, which discards what was
    not committed. *)
Definition upsert_entry (o : db_outcome) (p : Post) (new_posts : Z) : M Z :=
  match o with
  | DbExecuteFails =>
      print DatabaseOperationError ;; ret new_posts
  | DbOk =>
      t <- get_db ;;
      let (t', rowcount) := upsert t p in
      if 0 <? rowcount then
        print (UpdatedOrAdded (title p)) ;;
        run (Upsert p) t' ;;
        ret (new_posts + 1)
      else
        run (Upsert p) t' ;;
        ret new_posts
  | DbCommitFails =>
      t <- get_db ;;
      let (_, rowcount) := upsert t p in
      if 0 <? rowcount then
        print (UpdatedOrAdded (title p)) ;;
        print DatabaseOperationError ;;
        ret (new_posts + 1)
      else
        print DatabaseOperationError ;;
        ret new_posts
  | DbOtherFailure e => raise e
  end.

(** [for entry in feed.entries: ...], returning [new_posts]. *)
Fixpoint for_entries (entries : list entry_run) (new_posts : Z) : M Z :=
  match entries with
  | [] => ret new_posts
  | entry :: entries' =>
      p <- lift (extract_feed_entry (raw entry)) ;;
      new_posts' <- upsert_entry (engine entry) p new_posts ;;
      for_entries entries' new_posts'
  end.

(** [for feed_url in rss_feed_urls: ...], returning [total_new_posts]. *)
Fixpoint for_feeds (feeds : list feed_run) (total_new_posts : Z) : M Z :=
  match feeds with
  | [] => ret total_new_posts
  | f :: feeds' =>
      print (FetchingFeed (feed_url f)) ;;
      match fetched f with
      | ParseRaises e => raise e
      | Parsed true _ =>
          print (ErrorParsingFeed (feed_url f)) ;;
          for_feeds feeds' total_new_posts
      | Parsed false entries =>
          new_posts <- for_entries entries 0 ;;
          print (CompletedFeed (feed_url f) new_posts) ;;
          for_feeds feeds' (total_new_posts + new_posts)
      end
  end.

(** [fetch_blog_posts] from its second statement on, with every URL read
    paired with what fetching it gives: [if not rss_feed_urls: ...] and
    the [try] around the loop. *)
Definition fetch_feeds (rss_feed_urls : list feed_run) : M unit :=
  match rss_feed_urls with
  | [] => print NoFeedUrls
  | _ :: _ =>
      try_except
        (print StartingFetch ;;
         total_new_posts <- for_feeds rss_feed_urls 0 ;;
         print (FetchComplete total_new_posts))
        (fun e => print (ErrorFetchingFeeds e))
  end.

(** The URLs read, each with the answer of the call of
    [feedparser.parse] made on it: [answers n] is what the call number
    [n] of the cycle gives. *)
Fixpoint feeds_from (n : nat) (urls : list str) (answers : nat -> parsed)
  : list feed_run :=
  match urls with
  | [] => []
  | url :: urls' =>
      {| feed_url := url; fetched := answers n |}
      :: feeds_from (S n) urls' answers
  end.

(** The whole function: the file is read before the [try], so what the
    reading raises leaves the function. *)
Definition fetch_blog_posts (file : feed_file) (answers : nat -> parsed)
  : M unit :=
  rss_feed_urls <- read_rss_feed_urls RSS_FEED_FILE file ;;
  fetch_feeds (feeds_from 0 rss_feed_urls answers).

End WithPlatform.

End Cycle.

(* ================================================================= *)
(** ** Query: the [/search] handler *)

Module Query.

Import Normalizer Store World.
Local Open Scope monad_scope.

Inductive body :=
| Results (results : list Stored)
| Error (message : str).

(** What the view returns: a JSON body and a status code. *)
Record response := { payload : body; status : Z }.

Section WithPlatform.
Context {U : Unicode}.

(** [search()], with [arg] the value of [request.args] under ['query']. *)
Definition search (arg : option str) : M response :=
  let query := strip (get arg []) in
  if (match query with [] => true | _ :: _ => false end)
     || Nat.ltb 100 (List.length query)
  then ret {| payload := Error (lit "Invalid search query"); status := 400 |}
  else
    let query := re_sub_non_word_space query in
    let pattern := percent :: query ++ [percent] in
    t <- get_db ;;
    let results := select_like t pattern pattern pattern in
    run (Select pattern pattern pattern) t ;;
    print (SearchPerformed query) ;;
    ret {| payload := Results results; status := 200 |}.

End WithPlatform.

End Query.

(* ================================================================= *)
(** ** Vocabulary of the statements, and sample inputs *)

Module Props.

Import Enrich Normalizer Store World FeedFile Cycle Query.

(** A platform with nothing of interest above U+007F. *)
Definition ascii_unicode : Unicode :=
  {| uni_isspace := fun _ => false;
     uni_isalnum := fun _ => false;
     uni_lower := fun c => [c] |}.

(** A platform whose NLP finds nothing. *)
Definition quiet_nlp : Nlp :=
  {| polarity := fun _ => Ok Eq;
     ents := fun _ => Ok [];
     json_dumps := fun _ => lit "{}" |}.

(** A sample engine for the examples.  It reads a run of decimal digits
    as the integer it writes, named without leading zeros, and keeps
    every other string as text; on the dates the examples use (runs of a
    few digits, and strings with letters in them) this is what SQLite
    does. *)
Fixpoint drop_zeros (s : str) : str :=
  match s with
  | [] => []
  | c :: s' => if N.eqb c 48%N then drop_zeros s' else s
  end.

Definition digits_numeric (s : str) : option str :=
  if existsb is_digit s && forallb is_digit s
  then Some (match drop_zeros s with [] => [48%N] | d => d end)
  else None.

Definition digits_affinity : Affinity :=
  {| numeric := digits_numeric;
     numeric_digit := fun s H =>
       @eq_ind_r bool false
         (fun b =>
            (if b && forallb is_digit s
             then Some (match drop_zeros s with [] => [48%N] | d => d end)
             else None) = None)
         eq_refl (existsb is_digit s) H |}.

Definition all_ascii (s : str) : Prop := Forall (fun c => (c <= 127)%N) s.

Definition all_printable_ascii (s : str) : Prop :=
  Forall (fun c => (32 <= c <= 126)%N) s.

(** *** Sector, as the specification words it *)

Section WithUnicode.
Context {U : Unicode}.

(** The trigger occurs in the text, letter case set aside. *)
Definition occurs_ignoring_case (trigger text : str) : bool :=
  contains (lower trigger) (lower text).

Fixpoint first_sector_ignoring_case (table : list (str * list str))
  (text : str) : option str :=
  match table with
  | [] => None
  | (sector, triggers) :: table' =>
      if existsb (fun t => occurs_ignoring_case t text) triggers
      then Some sector
      else first_sector_ignoring_case table' text
  end.

(** The classifier of the specification: first sector of the table with a
    trigger occurring in the text case-insensitively, else General. *)
Definition specified_sector (text : str) : str :=
  match first_sector_ignoring_case sectors text with
  | Some sector => sector
  | None => lit "General"
  end.

End WithUnicode.

(** *** Entries *)

Definition tag_of (s : str) : Tag := {| term := Some s |}.

(** An entry with its tags field replaced. *)
Definition with_tags (e : RawEntry) (tags : option (list Tag)) : RawEntry :=
  {| e_title := e_title e; e_description := e_description e;
     e_author := e_author e; e_tags := tags;
     e_published := e_published e; e_link := e_link e |}.

Definition bare_entry : RawEntry :=
  {| e_title := None; e_description := None; e_author := None;
     e_tags := None; e_published := None; e_link := None |}.

Definition titled (t : string) (published : option str) : RawEntry :=
  {| e_title := Some (lit t); e_description := None; e_author := None;
     e_tags := None; e_published := published; e_link := None |}.

(** A title with a TAB between two letters and an e-acute after them. *)
Definition entry_with_tab : RawEntry :=
  {| e_title := Some [97; 9; 98; 233]%N; e_description := None;
     e_author := None; e_tags := None; e_published := None;
     e_link := None |}.

(** An entry whose one category element was empty: the tags field is
    present and holds nothing. *)
Definition entry_with_empty_tags : RawEntry := with_tags bare_entry (Some []).

(** *** The table *)


(** What the schema promises of every state of the table:
    [published_at] is UNIQUE and [id] is a primary key. *)
Definition table_ok (t : Table) : Prop :=
  NoDup (map key (rows t)) /\ NoDup (map row_id (rows t)).

(** The table after a run of upserts. *)
Definition upsert_all {A : Affinity} (t : Table) (ps : list Post) : Table :=
  fold_left (fun t p => fst (upsert t p)) ps t.

Definition sample_post (t published : string) : Post :=
  {| title := lit t; description := lit "No Description";
     author := lit "Unknown Author"; categories := lit "Uncategorized";
     sentiment := lit "Neutral"; sector := lit "General";
     keywords := lit "{}"; published_at := lit published;
     link := lit "No Link" |}.

(** *** The cycle *)

(** The world with more lines printed. *)
Definition printed (w : world) (ls : list line) : world :=
  {| db := db w; out := out w ++ ls; executed := executed w |}.

Definition fresh_world : world :=
  {| db := Store.empty; out := []; executed := [] |}.

(** The INSERT statement itself ran: the engine did not fail in
    [execute]. *)
Definition statement_ran (o : db_outcome) : bool :=
  match o with
  | DbExecuteFails | DbOtherFailure _ => false
  | DbOk | DbCommitFails => true
  end.

(** The engine raises nothing but what the inner [except] catches. *)
Definition settled (o : db_outcome) : Prop :=
  match o with
  | DbOtherFailure _ => False
  | DbOk | DbExecuteFails | DbCommitFails => True
  end.

(** The entries of a feed whose statement ran. *)
Definition ran_count (entries : list entry_run) : Z :=
  Z.of_nat (List.length (filter (fun e => statement_ran (engine e)) entries)).

Definition feed_count (f : feed_run) : Z :=
  match fetched f with
  | Parsed false entries => ran_count entries
  | Parsed true _ | ParseRaises _ => 0%Z
  end.

Definition total_count (feeds : list feed_run) : Z :=
  fold_right (fun f n => (feed_count f + n)%Z) 0%Z feeds.

Section WithPlatform.
Context {U : Unicode} {L : Nlp}.

(** The entry normalizes: [extract_feed_entry] returns. *)
Definition normalizes (e : entry_run) : Prop :=
  exists p, extract_feed_entry (raw e) = Ok p.

(** The entry goes through its turn of the loop without an exception
    leaving it. *)
Definition passes (e : entry_run) : Prop :=
  normalizes e /\ settled (engine e).

(** Nothing unexpected happens in the feed: parsing returns (with or
    without the bozo flag) and, unless the feed is skipped as bozo, every
    entry passes. *)
Definition uneventful (f : feed_run) : Prop :=
  match fetched f with
  | ParseRaises _ => False
  | Parsed true _ => True
  | Parsed false entries => Forall passes entries
  end.

End WithPlatform.

Definition good_feed (url : string) (entries : list RawEntry) : feed_run :=
  {| feed_url := lit url;
     fetched := Parsed false
                  (map (fun e => {| raw := e; engine := DbOk |}) entries) |}.

(** An entry whose only tag has no term: joining its terms raises. *)
Definition entry_with_bad_tag : RawEntry :=
  with_tags (titled "Broken" (Some (lit "Mon, 01 Jan 2024")))
            (Some [{| term := None |}]).

(** A feed whose first entry cannot be normalized and whose second can. *)
Definition broken_feed : feed_run :=
  good_feed "https://a.example/rss"
    [entry_with_bad_tag; titled "Alpha" (Some (lit "Sun, 31 Dec 2023"))].

Definition healthy_feed : feed_run :=
  good_feed "https://b.example/rss"
    [titled "Beta" (Some (lit "Tue, 02 Jan 2024"))].

(** Two entries without a publication date. *)
Definition undated_feed : feed_run :=
  good_feed "https://c.example/rss" [titled "Gamma" None; titled "Delta" None].

(** A feed file with one line for each of the feeds, and the answers of
    the parser in that order. *)
Definition file_of (feeds : list feed_run) : feed_file :=
  FileLines (map (fun f => feed_url f ++ [10%N]) feeds).

Definition answers_of (feeds : list feed_run) (n : nat) : parsed :=
  nth n (map fetched feeds) (Parsed true []).

(** *** Search *)

(** [q] is a substring of [text], character for character. *)
Definition occurs (q text : str) : Prop :=
  exists pre suf, text = pre ++ q ++ suf.

(** [q] matches a stretch of [text] the way LIKE compares characters:
    letters of ASCII without regard to case, [_] in [q] against any one
    character, anything else against itself. *)
Definition occurs_like (q text : str) : Prop :=
  exists pre mid suf,
    text = pre ++ mid ++ suf /\
    Forall2 (fun c d => like_char c d = true) q mid.

(** The pattern [search] binds to the three LIKE operands. *)
Definition wrap (q : str) : str := percent :: q ++ [percent].

Definition world_of (t : Table) : world :=
  {| db := t; out := []; executed := [] |}.

Definition storm_table : Table :=
  upsert_all (A := digits_affinity) Store.empty
    [sample_post "Alpha Storm" "Mon, 01 Jan 2024";
     sample_post "Beta" "Tue, 02 Jan 2024"].

End Props.

(* ================================================================= *)
(** ** Program: the worlds the running program passes through *)

Module Program.

Import Enrich Normalizer Store World FeedFile Cycle Query.

Section WithPlatform.
Context {U : Unicode} {L : Nlp} {A : Affinity}.

(** [__main__] calls [init_db] once; from then on the scheduler thread
    runs [fetch_blog_posts] again and again and the server runs [search]
    for each request, every access to the table under [db_lock]. *)
Inductive reachable : world -> Prop :=
| after_init_db (w : world) :
    reachable (snd (init_db w))
| after_fetch (w : world) (file : feed_file) (answers : nat -> parsed) :
    reachable w -> reachable (snd (fetch_blog_posts file answers w))
| after_search (w : world) (arg : option str) :
    reachable w -> reachable (snd (search arg w)).

End WithPlatform.

End Program.

(* ================================================================= *)
(** ** Further vocabulary *)

Module MoreProps.

Import Enrich Normalizer Store World Cycle Query Props.

(** *** Whitespace *)

Section WithUnicode.
Context {U : Unicode}.

Definition all_space (s : str) : Prop := Forall (fun c => isspace c = true) s.

(** The string does not begin with whitespace. *)
Definition no_lead (s : str) : Prop :=
  match s with
  | [] => True
  | c :: _ => isspace c = false
  end.

(** The string neither begins nor ends with whitespace. *)
Definition trimmed (s : str) : Prop := no_lead s /\ no_lead (rev s).

(** What [search] looks for: the query trimmed, then sanitized. *)
Definition sanitized (query : str) : str :=
  re_sub_non_word_space (strip query).

(** The handler accepts the query. *)
Definition accepted (query : str) : Prop :=
  strip query <> [] /\ List.length (strip query) <= 100.

End WithUnicode.

(** *** Entities *)

Definition is_place (ent : str * str) : bool :=
  label_in (fst ent) [lit "GPE"; lit "LOC"].

Definition is_person (ent : str * str) : bool :=
  str_eqb (fst ent) (lit "PERSON").

Definition is_group (ent : str * str) : bool :=
  label_in (fst ent) [lit "ORG"; lit "NORP"].

Definition is_other (ent : str * str) : bool :=
  negb (is_place ent) && negb (is_person ent) && negb (is_group ent).

(** The texts of the entities that pass a test, in their order. *)
Definition texts_where (f : str * str -> bool) (l : list (str * str))
  : list str :=
  map snd (filter f l).

(** *** Sector and sentiment names *)

Definition sector_names : list str :=
  map fst sectors ++ [lit "General"].

Definition sentiment_names : list str :=
  [lit "Positive"; lit "Negative"; lit "Neutral"].

(** *** The table *)

(** Rows stand in rowid order, and no id is above the counter. *)
Definition ids_ok (t : Table) : Prop :=
  StronglySorted Z.lt (map row_id (rows t)) /\
  Forall (fun i => (0 < i <= seq t)%Z) (map row_id (rows t)) /\
  (0 <= seq t)%Z.

(** The key a post goes under: its [published_at] as the column takes
    it. *)
Definition post_key {A : Affinity} (p : Post) : value :=
  affinity (published_at p).

(** The last post of a run that goes under the key, if any. *)
Fixpoint latest {A : Affinity} (ps : list Post) (k : value) : option Post :=
  match ps with
  | [] => None
  | p :: ps' =>
      match latest ps' k with
      | Some q => Some q
      | None => if value_eqb (post_key p) k then Some p else None
      end
  end.

(** *** The cycle *)

Section WithPlatform.
Context {U : Unicode} {L : Nlp}.

(** The posts of the entries that normalize and whose statement is run
    and committed. *)
Fixpoint entry_posts (entries : list entry_run) : list Post :=
  match entries with
  | [] => []
  | e :: entries' =>
      match extract_feed_entry (raw e), engine e with
      | Ok p, DbOk => p :: entry_posts entries'
      | _, _ => entry_posts entries'
      end
  end.

Definition feed_posts (f : feed_run) : list Post :=
  match fetched f with
  | Parsed false entries => entry_posts entries
  | Parsed true _ | ParseRaises _ => []
  end.

Definition committed_posts (feeds : list feed_run) : list Post :=
  flat_map feed_posts feeds.

End WithPlatform.

(** A feed file of three lines, one of them blank. *)
Definition sample_lines : list str :=
  [lit "  https://a.example/rss" ++ [10%N];
   [32; 9; 10]%N;
   lit "https://b.example/rss  " ++ [10%N]].

End MoreProps.

Import Enrich Normalizer Store World FeedFile Cycle Query Props.
Import Program MoreProps.

(** Replaces every literal of the goal, lower-cased or not, by its code
    points. *)
Ltac eval_literals :=
  repeat match goal with
         | |- context [lower (lit ?s)] =>
             let v := eval vm_compute in (lower (lit s)) in
             change (lower (lit s)) with v
         | |- context [lit ?s] =>
             let v := eval vm_compute in (lit s) in
             change (lit s) with v
         end.

(* ================================================================= *)
(** ** Facts about strings *)

Lemma str_eqb_eq (a b : str) : str_eqb a b = true <-> a = b.
Proof.
  revert b; induction a as [|x a IH]; intros [|y b]; simpl; split;
    try congruence; try reflexivity.
  - intros H. apply andb_true_iff in H as [Hx Hab].
    apply N.eqb_eq in Hx. apply IH in Hab. now subst.
  - intros H. injection H as -> ->.
    rewrite N.eqb_refl. simpl. now apply IH.
Qed.

Lemma str_eqb_refl (a : str) : str_eqb a a = true.
Proof. now apply str_eqb_eq. Qed.

Lemma str_eqb_neq (a b : str) : str_eqb a b = false <-> a <> b.
Proof.
  destruct (str_eqb a b) eqn:E; split; try congruence.
  - apply str_eqb_eq in E. congruence.
  - intros _ H. apply str_eqb_eq in H. congruence.
Qed.

Lemma is_ascii_le (c : char) : is_ascii c = true <-> (c <= 127)%N.
Proof. unfold is_ascii. apply N.leb_le. Qed.

Lemma re_sub_non_ascii_In (s : str) (c : char) :
  In c (re_sub_non_ascii s) <-> In c s /\ (c <= 127)%N.
Proof.
  unfold re_sub_non_ascii. rewrite filter_In, is_ascii_le. tauto.
Qed.

Lemma re_sub_non_ascii_all_ascii (s : str) : all_ascii (re_sub_non_ascii s).
Proof.
  apply Forall_forall. intros c Hc. now apply re_sub_non_ascii_In in Hc.
Qed.

(** Characters that are already ASCII pass through unchanged. *)
Lemma re_sub_non_ascii_id (s : str) : all_ascii s -> re_sub_non_ascii s = s.
Proof.
  unfold re_sub_non_ascii, all_ascii.
  induction 1 as [|c s Hc _ IH]; simpl; [reflexivity|].
  apply is_ascii_le in Hc. now rewrite Hc, IH.
Qed.

(* ================================================================= *)
(** ** The normalizer *)

Lemma terms_ok (ts : list Tag) (l : list str) :
  terms ts = Ok l -> map term ts = map Some l.
Proof.
  revert l. induction ts as [|t ts IH]; intros l; simpl.
  - intros H. now injection H as <-.
  - destruct (term t) as [s|]; [|discriminate].
    destruct (terms ts) as [l'|y]; [|discriminate].
    intros H. injection H as <-. simpl. f_equal. now apply IH.
Qed.

Section NormalizerFacts.
Context {U : Unicode} {L : Nlp}.

(** A successful [extract_feed_entry] went through the join of the
    tags and the two analyses, and wrote what they returned. *)
Lemma extract_feed_entry_ok (e : RawEntry) (p : Post) :
  extract_feed_entry e = Ok p ->
  let text := title p ++ lit " " ++ description p in
  title p = re_sub_non_ascii (get (e_title e) (lit "No Title")) /\
  description p =
    re_sub_non_ascii (get (e_description e) (lit "No Description")) /\
  author p = get (e_author e) (lit "Unknown Author") /\
  categories_of (e_tags e) = Ok (categories p) /\
  published_at p = get (e_published e) (lit "Unknown Date") /\
  link p = get (e_link e) (lit "No Link") /\
  analyze_sentiment text = Ok (sentiment p) /\
  sector p = identify_sector text /\
  exists k, extract_keywords text = Ok k /\ keywords p = json_dumps k.
Proof.
  unfold extract_feed_entry.
  destruct (categories_of (e_tags e)) as [c|x]; [|discriminate].
  destruct (analyze_sentiment _) as [sm|x] eqn:Es; [|discriminate].
  destruct (extract_keywords _) as [k|x] eqn:Ek; [|discriminate].
  intros H. injection H as <-. simpl.
  repeat (split; [reflexivity|]). split; [exact Es|].
  split; [reflexivity|]. now exists k.
Qed.

(** What a successful [extract_feed_entry] wrote in each field that does
    not go through the enrichment. *)
Lemma extract_feed_entry_fields (e : RawEntry) (p : Post) :
  extract_feed_entry e = Ok p ->
  title p = re_sub_non_ascii (get (e_title e) (lit "No Title")) /\
  description p =
    re_sub_non_ascii (get (e_description e) (lit "No Description")) /\
  author p = get (e_author e) (lit "Unknown Author") /\
  categories_of (e_tags e) = Ok (categories p) /\
  published_at p = get (e_published e) (lit "Unknown Date") /\
  link p = get (e_link e) (lit "No Link").
Proof.
  intros H.
  destruct (extract_feed_entry_ok e p H) as (? & ? & ? & ? & ? & ? & _).
  repeat split; assumption.
Qed.

(** The text handed to the enrichment is ASCII, and the sector stored is
    [identify_sector] of it. *)
Lemma extract_feed_entry_sector (e : RawEntry) (p : Post) :
  extract_feed_entry e = Ok p ->
  all_ascii (title p ++ lit " " ++ description p) /\
  sector p = identify_sector (title p ++ lit " " ++ description p) /\
  analyze_sentiment (title p ++ lit " " ++ description p) = Ok (sentiment p).
Proof.
  intros H.
  destruct (extract_feed_entry_ok e p H)
    as (Ht & Hd & _ & _ & _ & _ & Hs & Hsec & _).
  split; [|split; assumption].
  rewrite Ht, Hd.
  apply Forall_app. split; [apply re_sub_non_ascii_all_ascii|].
  constructor; [now apply N.leb_le|apply re_sub_non_ascii_all_ascii].
Qed.

Lemma terms_tag_of (l : list str) : terms (map tag_of l) = Ok l.
Proof.
  induction l as [|s l IH]; simpl; [reflexivity|]. now rewrite IH.
Qed.

End NormalizerFacts.

(** C6, as stated, fails: a TAB (U+0009) is outside the printable range
    U+0020..U+007E and survives the normalizer; only the e-acute is
    removed. *)
Lemma C6_tab_survives :
  exists p,
    extract_feed_entry (U := ascii_unicode) (L := quiet_nlp) entry_with_tab
      = Ok p /\
    title p = [97; 9; 98]%N /\
    ~ all_printable_ascii (title p).
Proof.
  eexists. split; [reflexivity|]. split; [reflexivity|].
  simpl. intros H. inversion H as [|? ? _ H1]; subst.
  inversion H1 as [|? ? H9 _]; subst. lia.
Qed.

(** C6, amended: the normalizer removes from the title and the description
    exactly the characters above U+007F.  What it stores is ASCII, holds
    every ASCII character of the input (control characters included), and
    an input that is already ASCII is stored unchanged. *)
Theorem C6_strips_above_ascii {U : Unicode} {L : Nlp}
  (e : RawEntry) (p : Post) :
  extract_feed_entry e = Ok p ->
  (forall c, In c (title p) <->
             In c (get (e_title e) (lit "No Title")) /\ (c <= 127)%N) /\
  (forall c, In c (description p) <->
             In c (get (e_description e) (lit "No Description")) /\
             (c <= 127)%N) /\
  all_ascii (title p) /\
  all_ascii (description p) /\
  (all_ascii (get (e_title e) (lit "No Title")) ->
   title p = get (e_title e) (lit "No Title")) /\
  (all_ascii (get (e_description e) (lit "No Description")) ->
   description p = get (e_description e) (lit "No Description")).
Proof.
  intros H. apply extract_feed_entry_fields in H as (Ht & Hd & _).
  rewrite Ht, Hd.
  split; [intros c; apply re_sub_non_ascii_In|].
  split; [intros c; apply re_sub_non_ascii_In|].
  split; [apply re_sub_non_ascii_all_ascii|].
  split; [apply re_sub_non_ascii_all_ascii|].
  split; apply re_sub_non_ascii_id.
Qed.

Lemma C6_strips_above_ascii_witness :
  exists p,
    extract_feed_entry (U := ascii_unicode) (L := quiet_nlp) entry_with_tab
      = Ok p /\
    all_ascii (title p) /\ In 9%N (title p).
Proof.
  eexists. split; [reflexivity|].
  pose proof (@C6_strips_above_ascii ascii_unicode quiet_nlp entry_with_tab
                _ eq_refl) as (Hin & _ & Hall & _).
  split; [exact Hall|].
  apply Hin. simpl. split; [tauto|lia].
Defined.

(** C7, as stated, fails: with a tags field that is present and empty the
    categories are the empty string, not the sentinel. *)
Lemma C7_empty_tags_give_empty_string :
  exists p,
    extract_feed_entry (U := ascii_unicode) (L := quiet_nlp)
      entry_with_empty_tags = Ok p /\
    categories p = [] /\
    categories p <> lit "Uncategorized".
Proof.
  eexists. split; [reflexivity|]. split; [reflexivity|]. discriminate.
Qed.

(** C7, amended: for an entry that normalizes, the categories are the
    sentinel when the tags field is absent, and the entry's tag terms
    joined with ", " when the tags field is present, which for a list
    that is present and empty is the empty string. *)
Theorem C7_categories {U : Unicode} {L : Nlp} (e : RawEntry) (p : Post) :
  extract_feed_entry e = Ok p ->
  (e_tags e = None -> categories p = lit "Uncategorized") /\
  (forall ts, e_tags e = Some ts ->
     exists l, map term ts = map Some l /\
               categories p = join (lit ", ") l) /\
  (e_tags e = Some [] -> categories p = []).
Proof.
  intros H. apply extract_feed_entry_fields in H as (_ & _ & _ & Hc & _).
  unfold categories_of in Hc. split; [|split].
  - intros Ht. rewrite Ht in Hc. now injection Hc as <-.
  - intros ts Ht. rewrite Ht in Hc.
    destruct (terms ts) as [l|x] eqn:E; [|discriminate].
    injection Hc as <-. exists l. split; [now apply terms_ok|reflexivity].
  - intros Ht. rewrite Ht in Hc. simpl in Hc. now injection Hc as <-.
Qed.

Lemma C7_categories_witness :
  let e := with_tags bare_entry
             (Some [tag_of (lit "Security"); tag_of (lit "Cloud")]) in
  exists p,
    extract_feed_entry (U := ascii_unicode) (L := quiet_nlp) e = Ok p /\
    categories p = lit "Security, Cloud".
Proof.
  intros e. eexists. split; [reflexivity|].
  destruct (@C7_categories ascii_unicode quiet_nlp e _ eq_refl)
    as (_ & Hjoin & _).
  destruct (Hjoin _ eq_refl) as (l & Hl & Hc).
  destruct l as [|a [|b [|c l]]]; try discriminate Hl.
  injection Hl as <- <-. exact Hc.
Defined.

(* ================================================================= *)
(** ** The sector classifier *)

Section SectorFacts.
Context {U : Unicode}.

Lemma lower_ascii (text : str) :
  all_ascii text -> lower text = map ascii_tolower text.
Proof.
  unfold lower, all_ascii.
  induction 1 as [|c s Hc _ IH]; simpl; [reflexivity|].
  rewrite IH. unfold lower_char. apply is_ascii_le in Hc.
  now rewrite Hc.
Qed.

Lemma ascii_tolower_not_upper (c : char) :
  ascii_isupper (ascii_tolower c) = false.
Proof.
  unfold ascii_tolower. destruct (ascii_isupper c) eqn:E; [|exact E].
  unfold ascii_isupper, between in *.
  apply andb_true_iff in E as [E1 E2].
  apply N.leb_le in E1, E2.
  apply andb_false_iff. right. apply N.leb_gt. lia.
Qed.

Lemma startswith_head (x : char) (p s : str) :
  startswith (x :: p) s = true -> exists s', s = x :: s'.
Proof.
  destruct s as [|y s]; simpl; [discriminate|].
  intros H. apply andb_true_iff in H as [H _].
  apply N.eqb_eq in H. subst. eauto.
Qed.

Lemma contains_head (x : char) (p s : str) :
  contains (x :: p) s = true -> In x s.
Proof.
  induction s as [|y s IH].
  - simpl. discriminate.
  - intros H. change (startswith (x :: p) (y :: s) || contains (x :: p) s = true) in H.
    apply orb_true_iff in H as [H|H].
    + apply startswith_head in H as [s' Hs]. injection Hs as -> _.
      now left.
    + right. now apply IH.
Qed.

(** The trigger "Olympics" starts with a capital letter and the text is
    lower-cased before the lookup: on the ASCII text the normalizer hands
    over, this trigger never matches. *)
Lemma olympics_never_matches (text : str) :
  all_ascii text -> contains (lit "Olympics") (lower text) = false.
Proof.
  intros Hascii. rewrite (lower_ascii text Hascii).
  destruct (contains (lit "Olympics") (map ascii_tolower text)) eqn:E;
    [|reflexivity].
  apply contains_head in E. apply in_map_iff in E as (c & Hc & _).
  pose proof (ascii_tolower_not_upper c) as Hup.
  rewrite Hc in Hup. discriminate.
Qed.

(** Away from that one trigger the classifier is the specified one: on
    ASCII text in which "olympics" does not occur in any letter case,
    [identify_sector] returns the first sector of the table with a trigger
    occurring in the text case-insensitively, and General when there is
    none. *)
Lemma identify_sector_as_specified (text : str) :
  all_ascii text ->
  occurs_ignoring_case (lit "Olympics") text = false ->
  identify_sector text = specified_sector text.
Proof.
  intros Ha Ho. pose proof (olympics_never_matches text Ha) as Hd.
  unfold identify_sector, specified_sector, sectors.
  cbn [first_sector first_sector_ignoring_case any_keyword existsb].
  unfold occurs_ignoring_case in *.
  revert Ho Hd. generalize (lower text). intros t.
  eval_literals.
  intros -> ->. reflexivity.
Qed.

(** C5: at a text the normalizer can hand over, which holds the Sports
    trigger "Olympics" and no trigger of Defense or Government, the
    specified classifier answers Sports and [identify_sector] answers
    General.  The trigger "Olympics" is the whole of the difference: on
    ASCII text in which it does not occur in any letter case the two
    classifiers agree. *)
Theorem C5_olympics_classified_general :
  (let text := lit "Olympics opening ceremony" in
   contains (lit "Olympics") text = true /\
   specified_sector text = lit "Sports" /\
   identify_sector text = lit "General") /\
  (forall text,
      all_ascii text ->
      occurs_ignoring_case (lit "Olympics") text = false ->
      identify_sector text = specified_sector text).
Proof.
  split.
  - vm_compute. repeat split.
  - exact identify_sector_as_specified.
Qed.

End SectorFacts.

Lemma C5_olympics_classified_general_witness :
  let text := lit "The ARMY and the Election" in
  all_ascii text /\
  occurs_ignoring_case (U := ascii_unicode) (lit "Olympics") text = false /\
  identify_sector (U := ascii_unicode) text = lit "Defense" /\
  specified_sector (U := ascii_unicode) text = lit "Defense".
Proof.
  intros text.
  assert (Ha : all_ascii text).
  { apply Forall_forall. intros c Hc. apply N.leb_le.
    exact (proj1 (forallb_forall _ _) (eq_refl : forallb is_ascii text = true)
                 c Hc). }
  assert (Ho : occurs_ignoring_case (U := ascii_unicode)
                 (lit "Olympics") text = false) by reflexivity.
  split; [exact Ha|]. split; [exact Ho|]. split; [reflexivity|].
  rewrite <- (proj2 (@C5_olympics_classified_general ascii_unicode) text Ha Ho).
  reflexivity.
Defined.

(* ================================================================= *)
(** ** The store: upsert *)

Lemma value_eqb_eq (a b : value) : value_eqb a b = true <-> a = b.
Proof.
  destruct a as [x|x], b as [y|y]; simpl; try rewrite str_eqb_eq;
    split; congruence.
Qed.

Lemma value_eqb_refl (a : value) : value_eqb a a = true.
Proof. now apply value_eqb_eq. Qed.

Lemma value_eqb_neq (a b : value) : value_eqb a b = false <-> a <> b.
Proof.
  destruct (value_eqb a b) eqn:E; split; try congruence.
  - apply value_eqb_eq in E. congruence.
  - intros _ H. apply value_eqb_eq in H. congruence.
Qed.

Lemma has_key_true (k : value) (rs : list Row) :
  has_key k rs = true <-> exists r, In r rs /\ key r = k.
Proof.
  unfold has_key. rewrite existsb_exists.
  split; intros (r & Hr & Hk); exists r; split; auto;
    now apply value_eqb_eq.
Qed.

Lemma has_key_false (k : value) (rs : list Row) :
  has_key k rs = false <-> ~ In k (map key rs).
Proof.
  split.
  - intros H Hin. apply in_map_iff in Hin as (r & Hk & Hr).
    assert (has_key k rs = true) by (apply has_key_true; eauto).
    congruence.
  - intros H. destruct (has_key k rs) eqn:E; [|reflexivity].
    apply has_key_true in E as (r & Hr & Hk). exfalso. apply H.
    apply in_map_iff. eauto.
Qed.





Lemma do_update_key (p : Post) (r : Row) : key (do_update p r) = key r.
Proof. reflexivity. Qed.

Lemma max_id_ge (rs : list Row) (r : Row) :
  In r rs -> (row_id r <= max_id rs)%Z.
Proof.
  induction rs as [|r0 rs IH]; simpl; [tauto|].
  intros [->|H]; [lia|]. apply IH in H. lia.
Qed.

(** The rowid an insert draws is used by no row of the table. *)
Lemma new_id_fresh (t : Table) :
  ~ In (Z.max (seq t) (max_id (rows t)) + 1)%Z (map row_id (rows t)).
Proof.
  intros H. apply in_map_iff in H as (r & Hid & Hr).
  apply max_id_ge in Hr. lia.
Qed.

Lemma NoDup_snoc {T} (l : list T) (a : T) :
  NoDup l -> ~ In a l -> NoDup (l ++ [a]).
Proof.
  intros Hl Ha. apply NoDup_app; [exact Hl|repeat constructor; auto|].
  intros x Hx [<-|[]]. contradiction.
Qed.

Lemma empty_table_ok : table_ok Store.empty.
Proof. split; constructor. Qed.

Section StoreFacts.
Context {A : Affinity}.

Lemma stored_key (p : Post) :
  published_at (stored p) = affinity (published_at p).
Proof. reflexivity. Qed.


(** A conflicting row after the update holds the new values, as the
    columns take them, under the old id. *)
Lemma do_update_post (p : Post) (r : Row) :
  key r = affinity (published_at p) ->
  do_update p r = {| row_id := row_id r; row_post := stored p |}.
Proof.
  unfold key, do_update, stored. now intros ->.
Qed.

Lemma update_rows_keys (p : Post) (rs : list Row) :
  map key (update_rows p rs) = map key rs.
Proof.
  unfold update_rows. rewrite map_map. apply map_ext.
  intros r. now destruct (value_eqb (key r) (affinity (published_at p))).
Qed.

Lemma update_rows_ids (p : Post) (rs : list Row) :
  map row_id (update_rows p rs) = map row_id rs.
Proof.
  unfold update_rows. rewrite map_map. apply map_ext.
  intros r. now destruct (value_eqb (key r) (affinity (published_at p))).
Qed.

Lemma update_rows_In (p : Post) (rs : list Row) (r' : Row) :
  In r' (update_rows p rs) <->
  exists r, In r rs /\
    ((key r = affinity (published_at p) /\
      r' = {| row_id := row_id r; row_post := stored p |}) \/
     (key r <> affinity (published_at p) /\ r' = r)).
Proof.
  unfold update_rows. rewrite in_map_iff.
  split; intros (r & H1 & H2); exists r.
  - split; [exact H2|].
    destruct (value_eqb (key r) (affinity (published_at p))) eqn:E.
    + apply value_eqb_eq in E. left. split; [exact E|].
      now rewrite <- H1, do_update_post.
    + apply value_eqb_neq in E. right. now split.
  - split; [|exact H1].
    destruct H2 as [[Hk ->]|[Hk ->]].
    + apply value_eqb_eq in Hk as Hk'. rewrite Hk'. now apply do_update_post.
    + apply value_eqb_neq in Hk. now rewrite Hk.
Qed.

(** The upsert keeps the promises of the schema. *)
Lemma upsert_table_ok (t : Table) (p : Post) :
  table_ok t -> table_ok (fst (upsert t p)).
Proof.
  unfold table_ok, upsert. intros [Hk Hi].
  destruct (has_key (affinity (published_at p)) (rows t)) eqn:E; simpl.
  - now rewrite update_rows_keys, update_rows_ids.
  - rewrite !map_app. simpl. split.
    + apply NoDup_snoc; [exact Hk|]. now apply has_key_false.
    + apply NoDup_snoc; [exact Hi|]. apply new_id_fresh.
Qed.


(** The key of the new values is in the table after the upsert. *)
Lemma upsert_key_present (t : Table) (p : Post) :
  In (affinity (published_at p)) (map key (rows (fst (upsert t p)))).
Proof.
  unfold upsert.
  destruct (has_key (affinity (published_at p)) (rows t)) eqn:E; simpl.
  - rewrite update_rows_keys.
    apply has_key_true in E as (r & Hr & Hk). apply in_map_iff. eauto.
  - rewrite map_app. apply in_or_app. right. now left.
Qed.

(** Every row under that key holds the new values in all nine columns. *)
Lemma upsert_row_post (t : Table) (p : Post) (r' : Row) :
  In r' (rows (fst (upsert t p))) -> key r' = affinity (published_at p) ->
  row_post r' = stored p.
Proof.
  unfold upsert.
  destruct (has_key (affinity (published_at p)) (rows t)) eqn:E; simpl.
  - intros Hin Hk. apply update_rows_In in Hin as (r & Hr & [[_ ->]|[Hn ->]]).
    + reflexivity.
    + contradiction.
  - intros Hin Hk. apply in_app_or in Hin as [Hin|[<-|[]]].
    + apply has_key_false in E. exfalso. apply E.
      apply in_map_iff. eauto.
    + reflexivity.
Qed.


(** Rows under other keys are left as they were. *)
Lemma upsert_other_rows (t : Table) (p : Post) (r : Row) :
  key r <> affinity (published_at p) ->
  (In r (rows (fst (upsert t p))) <-> In r (rows t)).
Proof.
  intros Hk. unfold upsert.
  destruct (has_key (affinity (published_at p)) (rows t)) eqn:E; simpl.
  - rewrite update_rows_In. split.
    + intros (r0 & Hr0 & [[Hk0 ->]|[_ ->]]); [|exact Hr0].
      exfalso. apply Hk. reflexivity.
    + intros Hr. exists r. split; [exact Hr|]. right. now split.
  - rewrite in_app_iff. simpl. split; [|tauto].
    intros [H|[<-|[]]]; [exact H|]. exfalso. apply Hk. reflexivity.
Qed.

(** When the engine answers the statement and the commit, the table after
    an entry's turn of the cycle is the table after [Store.upsert]. *)
Lemma upsert_entry_ok_db (p : Post) (n : Z) (w : world) :
  db (snd (upsert_entry DbOk p n w)) = fst (upsert (db w) p).
Proof.
  unfold upsert_entry, bind, get_db, upsert. simpl.
  destruct (has_key (affinity (published_at p)) (rows (db w))); reflexivity.
Qed.


End StoreFacts.


(* ================================================================= *)
(** ** The fetch cycle *)

Section CycleFacts.
Context {U : Unicode} {L : Nlp} {A : Affinity}.

Lemma bind_ok {X Y} (m : M X) (k : X -> M Y) (w w' : world) (a : X) :
  m w = (Ok a, w') -> bind m k w = k a w'.
Proof. unfold bind. now intros ->. Qed.

Lemma bind_raised {X Y} (m : M X) (k : X -> M Y) (w w' : world) (x : exn) :
  m w = (Raised x, w') -> bind m k w = (Raised x, w').
Proof. unfold bind. now intros ->. Qed.

(** The block for one entry only adds to what is printed and leaves
    the table as it was or as [Store.upsert] makes it. *)
Lemma upsert_entry_world (o : db_outcome) (p : Post) (n : Z) (w : world) :
  let w' := snd (upsert_entry o p n w) in
  (db w' = db w \/ db w' = fst (upsert (db w) p)) /\
  (exists ls, out w' = out w ++ ls).
Proof.
  destruct o; unfold upsert_entry, bind, get_db, upsert; simpl.
  - destruct (has_key (affinity (published_at p)) (rows (db w)));
      (split; [right; reflexivity|]); simpl; eexists; reflexivity.
  - split; [now left|]. eexists; reflexivity.
  - destruct (has_key (affinity (published_at p)) (rows (db w)));
      (split; [left; reflexivity|]);
      simpl; rewrite <- app_assoc; eexists; reflexivity.
  - split; [now left|]. exists []. now rewrite app_nil_r.
Qed.

(** Unless the engine raises past the inner [except], the block returns,
    and it reports one more post exactly when the statement ran. *)
Lemma upsert_entry_returns (o : db_outcome) (p : Post) (n : Z) (w : world) :
  settled o ->
  fst (upsert_entry o p n w) = Ok (if statement_ran o then n + 1 else n)%Z.
Proof.
  destruct o; unfold upsert_entry, bind, get_db, upsert; simpl;
    try contradiction; intros _;
    try destruct (has_key (affinity (published_at p)) (rows (db w))); reflexivity.
Qed.

Lemma upsert_entry_raises (x : exn) (p : Post) (n : Z) (w : world) :
  upsert_entry (DbOtherFailure x) p n w = (Raised x, w).
Proof. reflexivity. Qed.

(** An entry whose [execute] fails leaves the table alone and prints one
    line. *)
Lemma upsert_entry_execute_fails (p : Post) (n : Z) (w : world) :
  upsert_entry DbExecuteFails p n w =
    (Ok n, printed w [DatabaseOperationError]).
Proof. reflexivity. Qed.

Lemma bind_assoc {X Y Z} (m : M X) (k : X -> M Y) (h : Y -> M Z) (w : world) :
  bind (bind m k) h w = bind m (fun a => bind (k a) h) w.
Proof. unfold bind. destruct (m w) as [[a|x] w']; reflexivity. Qed.

Lemma bind_ext {X Y} (m : M X) (k k' : X -> M Y) (w : world) :
  (forall a w', k a w' = k' a w') -> bind m k w = bind m k' w.
Proof.
  intros H. unfold bind. destruct (m w) as [[a|x] w']; [apply H|reflexivity].
Qed.


(** Two runs of entries in a row are one run over both. *)
Lemma for_entries_app (es1 es2 : list entry_run) (n : Z) (w : world) :
  for_entries (es1 ++ es2) n w =
  bind (for_entries es1 n) (for_entries es2) w.
Proof.
  revert n w. induction es1 as [|e es1 IH]; intros n w.
  - reflexivity.
  - cbn [for_entries app]. rewrite bind_assoc.
    apply bind_ext. intros p w1. rewrite bind_assoc.
    apply bind_ext. intros n1 w2. apply IH.
Qed.


Lemma bind_lift_ok {X Y} (a : X) (k : X -> M Y) (w : world) :
  bind (lift (Ok a)) k w = k a w.
Proof. reflexivity. Qed.

Lemma bind_lift_raised {X Y} (x : exn) (k : X -> M Y) (w : world) :
  bind (lift (Raised x)) k w = (Raised x, w).
Proof. reflexivity. Qed.

Lemma for_entries_cons_ok (e : entry_run) (es : list entry_run) (n : Z)
  (w : world) (p : Post) :
  extract_feed_entry (raw e) = Ok p ->
  for_entries (e :: es) n w =
  bind (upsert_entry (engine e) p n) (for_entries es) w.
Proof. intros H. cbn [for_entries]. now rewrite H, bind_lift_ok. Qed.

(** An entry the normalizer raises on ends the loop over the entries:
    nothing is written and the exception leaves the loop. *)
Lemma for_entries_cons_raised (e : entry_run) (es : list entry_run) (n : Z)
  (w : world) (x : exn) :
  extract_feed_entry (raw e) = Raised x ->
  for_entries (e :: es) n w = (Raised x, w).
Proof. intros H. cbn [for_entries]. now rewrite H, bind_lift_raised. Qed.

Lemma ran_count_cons (e : entry_run) (es : list entry_run) :
  ran_count (e :: es) =
  ((if statement_ran (engine e) then 1 else 0) + ran_count es)%Z.
Proof.
  unfold ran_count. cbn [filter].
  destruct (statement_ran (engine e)); cbn [List.length]; lia.
Qed.

(** Whatever happens, the loop over the entries only adds printed lines
    and keeps the table within its schema. *)
Lemma for_entries_world (es : list entry_run) (n : Z) (w : world) :
  (exists ls, out (snd (for_entries es n w)) = out w ++ ls) /\
  (table_ok (db w) -> table_ok (db (snd (for_entries es n w)))).
Proof.
  revert n w. induction es as [|e es IH]; intros n w.
  - simpl. split; [exists []; now rewrite app_nil_r|tauto].
  - destruct (extract_feed_entry (raw e)) as [p|x] eqn:E.
    + rewrite (for_entries_cons_ok e es n w p E).
      destruct (upsert_entry_world (engine e) p n w) as (Hdb & ls1 & Hout).
      unfold bind.
      destruct (upsert_entry (engine e) p n w) as [[n1|x] w1];
        cbn [snd] in Hdb, Hout.
      * destruct (IH n1 w1) as [[ls2 Hout2] Hok2].
        split.
        -- exists (ls1 ++ ls2). now rewrite Hout2, Hout, app_assoc.
        -- intros Hok. apply Hok2.
           destruct Hdb as [-> | ->]; [exact Hok|now apply upsert_table_ok].
      * cbn [snd]. split; [now exists ls1|].
        intros Hok.
        destruct Hdb as [-> | ->]; [exact Hok|now apply upsert_table_ok].
    + rewrite (for_entries_cons_raised e es n w x E). simpl.
      split; [exists []; now rewrite app_nil_r|tauto].
Qed.

Lemma upsert_entry_pair (o : db_outcome) (p : Post) (n : Z) (w : world) :
  settled o ->
  exists w',
    upsert_entry o p n w = (Ok (if statement_ran o then n + 1 else n)%Z, w').
Proof.
  intros Ho. pose proof (upsert_entry_returns o p n w Ho) as H.
  destruct (upsert_entry o p n w) as [r w']. simpl in H. subst.
  now exists w'.
Qed.

(** When every entry passes the loop returns, and the number it returns
    counts the entries whose statement ran. *)
Lemma for_entries_returns (es : list entry_run) (n : Z) (w : world) :
  Forall passes es ->
  fst (for_entries es n w) = Ok (n + ran_count es)%Z.
Proof.
  intros Hall. revert n w.
  induction Hall as [|e es [[p Hp] Ho] _ IH]; intros n w.
  - simpl. f_equal. unfold ran_count. simpl. lia.
  - rewrite (for_entries_cons_ok e es n w p Hp).
    destruct (upsert_entry_pair (engine e) p n w Ho) as (w1 & Hrun).
    rewrite (bind_ok _ _ _ _ _ Hrun), IH, ran_count_cons.
    f_equal. destruct (statement_ran (engine e)); lia.
Qed.


(** What follows an entry the normalizer raises on is never reached. *)
Lemma for_entries_cut (es1 es2 : list entry_run) (e : entry_run) (n : Z)
  (w : world) (x : exn) :
  extract_feed_entry (raw e) = Raised x ->
  for_entries (es1 ++ e :: es2) n w = for_entries (es1 ++ [e]) n w.
Proof.
  intros H. rewrite !for_entries_app. apply bind_ext. intros n1 w1.
  now rewrite !(for_entries_cons_raised e _ n1 w1 x H).
Qed.

(** The three ways one turn of the loop over the feeds can go. *)
Lemma for_feeds_cons (f : feed_run) (fs : list feed_run) (total : Z)
  (w : world) :
  for_feeds (f :: fs) total w =
  match fetched f with
  | ParseRaises x => (Raised x, printed w [FetchingFeed (feed_url f)])
  | Parsed true _ =>
      for_feeds fs total
        (printed w [FetchingFeed (feed_url f); ErrorParsingFeed (feed_url f)])
  | Parsed false es =>
      match for_entries es 0 (printed w [FetchingFeed (feed_url f)]) with
      | (Ok n, w') =>
          for_feeds fs (total + n) (printed w' [CompletedFeed (feed_url f) n])
      | (Raised x, w') => (Raised x, w')
      end
  end.
Proof.
  cbn [for_feeds]. unfold bind at 1. cbn [print].
  destruct (fetched f) as [x|[|] es].
  - reflexivity.
  - unfold bind, print, printed. simpl. now rewrite <- app_assoc.
  - unfold bind at 1. fold (printed w [FetchingFeed (feed_url f)]).
    destruct (for_entries es 0 _) as [[n|x] w']; reflexivity.
Qed.

Lemma for_feeds_world (fs : list feed_run) (total : Z) (w : world) :
  (exists ls, out (snd (for_feeds fs total w)) = out w ++ ls) /\
  (table_ok (db w) -> table_ok (db (snd (for_feeds fs total w)))).
Proof.
  revert total w. induction fs as [|f fs IH]; intros total w.
  - simpl. split; [exists []; now rewrite app_nil_r|tauto].
  - rewrite for_feeds_cons. destruct (fetched f) as [x|[|] es].
    + simpl. split; [eexists; reflexivity|tauto].
    + destruct (IH total (printed w [FetchingFeed (feed_url f);
                                     ErrorParsingFeed (feed_url f)]))
        as [[ls Hls] Hok].
      split; [|exact Hok].
      rewrite Hls. simpl. rewrite <- app_assoc. eexists; reflexivity.
    + destruct (for_entries_world es 0 (printed w [FetchingFeed (feed_url f)]))
        as [[ls1 Hls1] Hok1].
      destruct (for_entries es 0 _) as [[n|x] w1]; simpl in Hls1, Hok1.
      * destruct (IH (total + n)%Z
                     (printed w1 [CompletedFeed (feed_url f) n]))
          as [[ls2 Hls2] Hok2].
        split; [|tauto].
        rewrite Hls2. simpl. rewrite Hls1, <- !app_assoc.
        eexists; reflexivity.
      * simpl. split; [|exact Hok1].
        rewrite Hls1, <- app_assoc. eexists; reflexivity.
Qed.

Lemma total_count_cons (f : feed_run) (fs : list feed_run) :
  total_count (f :: fs) = (feed_count f + total_count fs)%Z.
Proof. reflexivity. Qed.

(** When nothing unexpected happens the loop over the feeds returns the
    number of entries whose statement ran, and prints that number for
    each feed it did not skip. *)
Lemma for_feeds_returns (fs : list feed_run) (total : Z) (w : world) :
  Forall uneventful fs ->
  fst (for_feeds fs total w) = Ok (total + total_count fs)%Z /\
  exists ls,
    out (snd (for_feeds fs total w)) = out w ++ ls /\
    forall url es,
      In {| feed_url := url; fetched := Parsed false es |} fs ->
      In (CompletedFeed url (ran_count es)) ls.
Proof.
  intros Hall. revert total w.
  induction Hall as [|f fs Hf _ IH]; intros total w.
  - simpl. split; [f_equal; lia|].
    exists []. rewrite app_nil_r. split; [reflexivity|]. intros ? ? [].
  - rewrite for_feeds_cons, total_count_cons.
    unfold uneventful in Hf. unfold feed_count.
    destruct f as [url0 fetched0]. cbn [fetched feed_url] in *.
    destruct fetched0 as [x|[|] es0]; [contradiction| |].
    + destruct (IH total (printed w [FetchingFeed url0;
                                     ErrorParsingFeed url0]))
        as (Hfst & ls & Hls & Hin).
      split; [rewrite Hfst; f_equal; lia|].
      exists ([FetchingFeed url0; ErrorParsingFeed url0] ++ ls).
      split; [rewrite Hls; simpl; now rewrite <- app_assoc|].
      intros url es [Heq|H]; [discriminate|].
      apply in_or_app. right. now apply Hin.
    + pose proof (for_entries_returns es0 0
                    (printed w [FetchingFeed url0]) Hf) as Hn.
      destruct (for_entries_world es0 0 (printed w [FetchingFeed url0]))
        as [[ls1 Hls1] _].
      destruct (for_entries es0 0 _) as [[n|x] w1]; simpl in Hn, Hls1;
        [|discriminate].
      injection Hn as ->.
      destruct (IH (total + ran_count es0)%Z
                   (printed w1 [CompletedFeed url0 (ran_count es0)]))
        as (Hfst & ls & Hls & Hin).
      split; [rewrite Hfst; f_equal; lia|].
      exists ([FetchingFeed url0] ++ ls1 ++
              [CompletedFeed url0 (ran_count es0)] ++ ls).
      split; [rewrite Hls; simpl; rewrite Hls1; now rewrite <- !app_assoc|].
      intros url es [Heq|H].
      * injection Heq as -> ->. rewrite !in_app_iff. simpl. tauto.
      * apply Hin in H. rewrite !in_app_iff. tauto.
Qed.



(** Past the reading of the file, on a list that is not empty: the loop
    runs inside the one [try] of the function, and whatever it raises is
    printed after it has ended. *)
Lemma fetch_feeds_cons (f : feed_run) (fs : list feed_run) (w : world) :
  fetch_feeds (f :: fs) w =
  match for_feeds (f :: fs) 0 (printed w [StartingFetch]) with
  | (Ok total, w') => (Ok tt, printed w' [FetchComplete total])
  | (Raised x, w') => (Ok tt, printed w' [ErrorFetchingFeeds x])
  end.
Proof.
  unfold fetch_feeds, try_except. unfold bind at 1. cbn [print].
  fold (printed w [StartingFetch]). unfold bind at 1.
  destruct (for_feeds (f :: fs) 0 _) as [[t|x] w']; reflexivity.
Qed.


(** A cycle keeps the table within its schema. *)
Lemma fetch_feeds_table_ok (fs : list feed_run) (w : world) :
  table_ok (db w) -> table_ok (db (snd (fetch_feeds fs w))).
Proof.
  intros Hok. destruct fs as [|f fs]; [exact Hok|].
  rewrite fetch_feeds_cons.
  destruct (for_feeds_world (f :: fs) 0 (printed w [StartingFetch]))
    as [_ H].
  destruct (for_feeds (f :: fs) 0 _) as [[t|x] w']; simpl in *; now apply H.
Qed.

(** The three ways the whole function can go, by what reading the file
    gives. *)
Lemma fetch_blog_posts_lines (lines : list str) (answers : nat -> parsed)
  (w : world) :
  fetch_blog_posts (FileLines lines) answers w =
  fetch_feeds
    (feeds_from 0 (map strip (filter (fun line => truthy (strip line)) lines))
                answers) w.
Proof. reflexivity. Qed.

Lemma fetch_blog_posts_not_found (answers : nat -> parsed) (w : world) :
  fetch_blog_posts FileNotFound answers w =
  (Ok tt, printed w [RssFileNotFound RSS_FEED_FILE; NoFeedUrls]).
Proof.
  unfold fetch_blog_posts, read_rss_feed_urls, bind. simpl.
  unfold print, printed. simpl. now rewrite <- app_assoc.
Qed.

Lemma fetch_blog_posts_file_raises (e : exn) (answers : nat -> parsed)
  (w : world) :
  fetch_blog_posts (FileRaises e) answers w = (Raised e, w).
Proof. reflexivity. Qed.

(** The whole function keeps the table within its schema. *)
Lemma fetch_blog_posts_table_ok (file : feed_file) (answers : nat -> parsed)
  (w : world) :
  table_ok (db w) -> table_ok (db (snd (fetch_blog_posts file answers w))).
Proof.
  intros Hok. destruct file as [|lines|e].
  - now rewrite fetch_blog_posts_not_found.
  - rewrite fetch_blog_posts_lines. now apply fetch_feeds_table_ok.
  - now rewrite fetch_blog_posts_file_raises.
Qed.

End CycleFacts.

(* ================================================================= *)
(** ** The fetch cycle: failures and counts *)








(* ================================================================= *)
(** ** Undated entries *)



(* ================================================================= *)
(** ** LIKE *)

Lemma startswith_spec (p s : str) :
  startswith p s = true <-> exists suf, s = p ++ suf.
Proof.
  revert s. induction p as [|x p IH]; intros s; simpl.
  - split; [intros _; now exists s|reflexivity].
  - destruct s as [|y s].
    + split; [discriminate|intros [suf H]; discriminate].
    + rewrite andb_true_iff, N.eqb_eq, IH. split.
      * intros [-> [suf ->]]. now exists suf.
      * intros [suf H]. injection H as -> ->. split; [reflexivity|now exists suf].
Qed.

(** Python's [in] on strings is the substring relation. *)
Lemma contains_spec (q text : str) :
  contains q text = true <-> occurs q text.
Proof.
  unfold occurs. induction text as [|d text IH].
  - simpl. rewrite orb_false_r, startswith_spec. split.
    + intros [suf H]. now exists [], suf.
    + intros (pre & suf & H). destruct pre; [now exists suf|discriminate].
  - change (contains q (d :: text))
      with (startswith q (d :: text) || contains q text).
    rewrite orb_true_iff, startswith_spec, IH. split.
    + intros [[suf H]|(pre & suf & H)].
      * now exists [], suf.
      * exists (d :: pre), suf. now rewrite H.
    + intros (pre & suf & H). destruct pre as [|d' pre].
      * left. now exists suf.
      * right. injection H as _ H. now exists pre, suf.
Qed.

Lemma any_suffix_spec (f : str -> bool) (t : str) :
  any_suffix f t = true <-> exists pre suf, t = pre ++ suf /\ f suf = true.
Proof.
  induction t as [|d t IH].
  - simpl. rewrite orb_false_r. split.
    + intros H. now exists [], [].
    + intros (pre & suf & H & Hf).
      symmetry in H. apply app_eq_nil in H as [_ ->]. exact Hf.
  - change (any_suffix f (d :: t)) with (f (d :: t) || any_suffix f t).
    rewrite orb_true_iff, IH. split.
    + intros [H|(pre & suf & H & Hf)].
      * now exists [], (d :: t).
      * exists (d :: pre), suf. now rewrite H.
    + intros (pre & suf & H & Hf). destruct pre as [|d' pre].
      * left. simpl in H. now rewrite H.
      * right. injection H as _ H. now exists pre, suf.
Qed.

Lemma like_char_refl (c : char) : like_char c c = true.
Proof.
  unfold like_char. rewrite N.eqb_refl. now rewrite orb_true_r.
Qed.

(** A pattern without [%] followed by [%] matches the texts that begin
    with a stretch it matches character by character. *)
Lemma like_match_then_percent (q t : str) :
  ~ In percent q ->
  (like_match (q ++ [percent]) t = true <->
   exists mid suf,
     t = mid ++ suf /\ Forall2 (fun c d => like_char c d = true) q mid).
Proof.
  revert t. induction q as [|c q IH]; intros t Hq.
  - cbn [app like_match]. rewrite N.eqb_refl. split.
    + intros _. exists [], t. split; [reflexivity|constructor].
    + intros _. apply any_suffix_spec. exists t, []. split.
      * now rewrite app_nil_r.
      * reflexivity.
  - cbn [app like_match].
    assert (Hc : N.eqb c percent = false).
    { apply N.eqb_neq. intros ->. apply Hq. now left. }
    rewrite Hc. destruct t as [|d t].
    + split; [discriminate|].
      intros (mid & suf & H & HF). inversion HF; subst. discriminate.
    + rewrite andb_true_iff, IH by (intros H; apply Hq; now right).
      split.
      * intros [Hcd (mid & suf & -> & HF)].
        exists (d :: mid), suf. split; [reflexivity|now constructor].
      * intros (mid & suf & H & HF).
        inversion HF as [|? d' ? mid' Hcd HF']; subst.
        injection H as -> ->. split; [exact Hcd|]. now exists mid', suf.
Qed.

(** The pattern of [search] matches the texts in which the query matches
    somewhere. *)
Lemma like_match_wrap (q t : str) :
  ~ In percent q ->
  (like_match (wrap q) t = true <-> occurs_like q t).
Proof.
  intros Hq. unfold wrap, occurs_like. cbn [like_match].
  rewrite N.eqb_refl, any_suffix_spec. split.
  - intros (pre & suf & -> & H).
    apply like_match_then_percent in H as (mid & suf' & -> & HF); auto.
    now exists pre, mid, suf'.
  - intros (pre & mid & suf & -> & HF).
    exists pre, (mid ++ suf). split; [reflexivity|].
    apply like_match_then_percent; auto. now exists mid, suf.
Qed.

Lemma c_str_id (s : str) : ~ In 0%N s -> c_str s = s.
Proof.
  induction s as [|c s IH]; simpl; [reflexivity|].
  intros H. destruct (N.eqb c 0) eqn:E.
  - apply N.eqb_eq in E. tauto.
  - rewrite IH; [reflexivity|tauto].
Qed.

(** A substring in the ordinary sense matches under LIKE too. *)
Lemma occurs_occurs_like (q t : str) : occurs q t -> occurs_like q t.
Proof.
  intros (pre & suf & ->). exists pre, q, suf. split; [reflexivity|].
  induction q; constructor; auto using like_char_refl.
Qed.

Lemma occurs_like_nil (t : str) : occurs_like [] t.
Proof. exists [], [], t. split; [reflexivity|constructor]. Qed.

(* ================================================================= *)
(** ** The search handler *)

Section SearchFacts.
Context {U : Unicode}.

Lemma sanitized_In (s : str) (c : char) :
  In c (re_sub_non_word_space s) <->
  In c s /\ (isword c || isspace c) = true.
Proof. unfold re_sub_non_word_space. apply filter_In. Qed.

(** Neither [%] nor NUL is a word character or whitespace, so neither is
    left in a sanitized query. *)
Lemma sanitized_no_percent (s : str) : ~ In percent (re_sub_non_word_space s).
Proof. intros H. apply sanitized_In in H as [_ H]. discriminate H. Qed.

Lemma sanitized_no_nul (s : str) : ~ In 0%N (re_sub_non_word_space s).
Proof. intros H. apply sanitized_In in H as [_ H]. discriminate H. Qed.

Lemma c_str_wrap_sanitized (s : str) :
  c_str (wrap (re_sub_non_word_space s)) = wrap (re_sub_non_word_space s).
Proof.
  apply c_str_id. unfold wrap. simpl. rewrite in_app_iff. simpl.
  intros [H|[H|[H|[]]]]; try discriminate H.
  now apply sanitized_no_nul in H.
Qed.

(** One operand of the WHERE clause, for the pattern [search] builds. *)
Lemma like_wrap_sanitized (s text : str) :
  like text (wrap (re_sub_non_word_space s)) = true <->
  occurs_like (re_sub_non_word_space s) (c_str text).
Proof.
  unfold like. rewrite c_str_wrap_sanitized.
  apply like_match_wrap, sanitized_no_percent.
Qed.

(** The whole WHERE clause. *)
Lemma where_like_wrap_sanitized (s : str) (r : Row) :
  let q := re_sub_non_word_space s in
  where_like (wrap q) (wrap q) (wrap q) r = true <->
  occurs_like q (c_str (title (row_post r))) \/
  occurs_like q (c_str (description (row_post r))) \/
  occurs_like q (c_str (categories (row_post r))).
Proof.
  cbv zeta. unfold where_like.
  now rewrite !orb_true_iff, !like_wrap_sanitized, or_assoc.
Qed.

Lemma select_like_In (t : Table) (p1 p2 p3 : str) (p : Stored) :
  In p (select_like t p1 p2 p3) <->
  exists r, In r (rows t) /\ row_post r = p /\ where_like p1 p2 p3 r = true.
Proof.
  unfold select_like. rewrite in_map_iff. split.
  - intros (r & Hp & Hr). apply filter_In in Hr as [Hr Hw]. eauto.
  - intros (r & Hr & Hp & Hw). exists r. split; [exact Hp|].
    now apply filter_In.
Qed.

(** A query that is empty or too long after trimming is answered with
    400, and the world is left as it was: nothing is read from the table
    and nothing is printed. *)
Lemma search_rejects (arg : option str) (w : world) :
  let query := strip (get arg []) in
  query = [] \/ 100 < List.length query ->
  search arg w =
    (Ok {| payload := Error (lit "Invalid search query"); status := 400 |}, w).
Proof.
  cbv zeta. unfold search. intros [H|H].
  - now rewrite H.
  - apply Nat.ltb_lt in H. rewrite H. now rewrite orb_true_r.
Qed.

(** Any other query is sanitized and run as one SELECT. *)
Lemma search_accepts (arg : option str) (w : world) :
  let query := strip (get arg []) in
  let pattern := wrap (re_sub_non_word_space query) in
  query <> [] -> List.length query <= 100 ->
  search arg w =
    (Ok {| payload := Results (select_like (db w) pattern pattern pattern);
           status := 200 |},
     {| db := db w;
        out := out w ++ [SearchPerformed (re_sub_non_word_space query)];
        executed := executed w ++ [Select pattern pattern pattern] |}).
Proof.
  cbv zeta. unfold search. intros Hne Hlen.
  apply Nat.ltb_ge in Hlen. rewrite Hlen.
  destruct (strip (get arg [])) as [|c s]; [contradiction|].
  reflexivity.
Qed.

End SearchFacts.

(** C3, as stated, fails: "storm" is not a substring of the title "Alpha
    Storm" nor of the description or the categories of that record, and
    the search for it returns the record. *)
Lemma C3_search_ignores_case :
  let p := sample_post "Alpha Storm" "Mon, 01 Jan 2024" in
  contains (lit "storm") (title p) = false /\
  contains (lit "storm") (description p) = false /\
  contains (lit "storm") (categories p) = false /\
  fst (search (U := ascii_unicode) (Some (lit "storm")) (world_of storm_table))
    = Ok {| payload := Results [stored (A := digits_affinity) p];
            status := 200 |}.
Proof. vm_compute. repeat split. Qed.

(** C3, amended: for a query the handler accepts, the records returned
    are exactly those of the table in which the sanitized query matches
    somewhere in the title, or in the description, or in the categories,
    each read up to its first NUL, where a match compares letters of
    ASCII without regard to case and lets [_] stand for any one
    character.  A record in which the sanitized query is a substring of
    one of the three is among them, and when no record matches the answer
    is the empty list with status 200. *)
Theorem C3_search_matches_like {U : Unicode} (arg : option str) (w : world) :
  let query := strip (get arg []) in
  let q := re_sub_non_word_space query in
  query <> [] -> List.length query <= 100 ->
  exists results,
    fst (search arg w) = Ok {| payload := Results results; status := 200 |} /\
    (forall p,
        In p results <->
        exists r, In r (rows (db w)) /\ row_post r = p /\
          (occurs_like q (c_str (title p)) \/
           occurs_like q (c_str (description p)) \/
           occurs_like q (c_str (categories p)))) /\
    (forall r,
        In r (rows (db w)) ->
        occurs q (c_str (title (row_post r))) \/
        occurs q (c_str (description (row_post r))) \/
        occurs q (c_str (categories (row_post r))) ->
        In (row_post r) results) /\
    ((forall r, In r (rows (db w)) ->
        ~ (occurs_like q (c_str (title (row_post r))) \/
           occurs_like q (c_str (description (row_post r))) \/
           occurs_like q (c_str (categories (row_post r))))) ->
     results = []).
Proof.
  intros query q Hne Hlen.
  exists (select_like (db w) (wrap q) (wrap q) (wrap q)).
  assert (Hin : forall p,
             In p (select_like (db w) (wrap q) (wrap q) (wrap q)) <->
             exists r, In r (rows (db w)) /\ row_post r = p /\
               (occurs_like q (c_str (title p)) \/
                occurs_like q (c_str (description p)) \/
                occurs_like q (c_str (categories p)))).
  { intros p. rewrite select_like_In. split.
    - intros (r & Hr & <- & Hw). exists r.
      split; [exact Hr|]. split; [reflexivity|].
      now apply (where_like_wrap_sanitized query r).
    - intros (r & Hr & <- & Hw). exists r.
      split; [exact Hr|]. split; [reflexivity|].
      now apply (where_like_wrap_sanitized query r). }
  split; [now rewrite (search_accepts arg w Hne Hlen)|].
  split; [exact Hin|]. split.
  - intros r Hr Hocc. apply Hin. exists r.
    split; [exact Hr|]. split; [reflexivity|].
    destruct Hocc as [H|[H|H]]; auto using occurs_occurs_like.
  - intros Hnone.
    destruct (select_like (db w) (wrap q) (wrap q) (wrap q)) as [|p l] eqn:E;
      [reflexivity|].
    assert (Hp : In p (p :: l)) by now left.
    apply Hin in Hp as (r & Hr & <- & Hocc).
    exfalso. now apply (Hnone r).
Qed.

Lemma C3_search_matches_like_witness :
  let arg := Some (lit " S_ORM! ") in
  let query := strip (U := ascii_unicode) (get arg []) in
  query <> [] /\ List.length query <= 100 /\
  exists results,
    fst (search (U := ascii_unicode) arg (world_of storm_table)) =
      Ok {| payload := Results results; status := 200 |} /\
    In (stored (A := digits_affinity)
          (sample_post "Alpha Storm" "Mon, 01 Jan 2024")) results.
Proof.
  intros arg query.
  assert (Hne : query <> []) by (vm_compute; discriminate).
  assert (Hlen : List.length query <= 100) by (vm_compute; lia).
  split; [exact Hne|]. split; [exact Hlen|].
  destruct (@C3_search_matches_like ascii_unicode arg (world_of storm_table)
              Hne Hlen) as (results & Hres & Hin & _).
  exists results. split; [exact Hres|].
  apply Hin.
  exists {| row_id := 1;
            row_post := stored (A := digits_affinity)
                          (sample_post "Alpha Storm" "Mon, 01 Jan 2024") |}.
  split; [vm_compute; now left|]. split; [reflexivity|].
  left. exists (lit "Alpha "), (lit "Storm"), [].
  split; [reflexivity|].
  vm_compute. repeat constructor.
Defined.

(** C8: the handler answers 400 exactly when the trimmed query is empty or
    longer than 100 characters, and then leaves the world untouched: no
    statement reaches the table.  Otherwise it deletes from the trimmed
    query every character that is neither a word character nor
    whitespace, runs one SELECT with the result between two [%] for each
    of the three operands, and answers 200 with the rows selected. *)
Theorem C8_search_validation {U : Unicode} (arg : option str) (w : world) :
  let query := strip (get arg []) in
  let q := re_sub_non_word_space query in
  ((exists b, fst (search arg w) = Ok {| payload := b; status := 400 |}) <->
   (query = [] \/ 100 < List.length query)) /\
  (query = [] \/ 100 < List.length query ->
   search arg w =
     (Ok {| payload := Error (lit "Invalid search query"); status := 400 |},
      w)) /\
  (query <> [] /\ List.length query <= 100 ->
   fst (search arg w) =
     Ok {| payload := Results (select_like (db w) (wrap q) (wrap q) (wrap q));
           status := 200 |} /\
   executed (snd (search arg w)) =
     executed w ++ [Select (wrap q) (wrap q) (wrap q)] /\
   db (snd (search arg w)) = db w) /\
  (forall c, In c q <-> In c query /\ (isword c || isspace c) = true) /\
  (exists dropped, List.length query = List.length q + dropped).
Proof.
  intros query q.
  assert (Hcases : (query = [] \/ 100 < List.length query) \/
                   (query <> [] /\ List.length query <= 100)).
  { destruct query as [|c s] eqn:E.
    - left. now left.
    - destruct (Nat.ltb 100 (List.length (c :: s))) eqn:El.
      + left. right. now apply Nat.ltb_lt.
      + right. split; [discriminate|]. now apply Nat.ltb_ge. }
  split; [|split; [|split; [|split]]].
  - split.
    + intros [b Hb]. destruct Hcases as [H|[Hne Hlen]]; [exact H|].
      rewrite (search_accepts arg w Hne Hlen) in Hb. discriminate Hb.
    + intros H. rewrite (search_rejects arg w H). eexists. reflexivity.
  - apply search_rejects.
  - intros [Hne Hlen]. now rewrite (search_accepts arg w Hne Hlen).
  - intros c. apply sanitized_In.
  - unfold q, re_sub_non_word_space.
    exists (List.length query
            - List.length (filter (fun c => isword c || isspace c) query)).
    pose proof (filter_length_le (fun c => isword c || isspace c) query).
    lia.
Qed.

Lemma C8_search_validation_witness :
  let long := repeat 97%N 101 in
  let w := world_of storm_table in
  search (U := ascii_unicode) (Some long) w =
    (Ok {| payload := Error (lit "Invalid search query"); status := 400 |},
     w) /\
  search (U := ascii_unicode) (Some (lit "   ")) w =
    (Ok {| payload := Error (lit "Invalid search query"); status := 400 |},
     w) /\
  fst (search (U := ascii_unicode) (Some (lit " Storm; ")) w) =
    Ok {| payload :=
            Results [stored (A := digits_affinity)
                       (sample_post "Alpha Storm" "Mon, 01 Jan 2024")];
          status := 200 |}.
Proof.
  intros long w.
  destruct (@C8_search_validation ascii_unicode (Some long) w)
    as (_ & Hlong & _).
  destruct (@C8_search_validation ascii_unicode (Some (lit "   ")) w)
    as (_ & Hblank & _).
  destruct (@C8_search_validation ascii_unicode (Some (lit " Storm; ")) w)
    as (_ & _ & Hok & _).
  split; [apply Hlong; right; vm_compute; lia|].
  split; [apply Hblank; left; reflexivity|].
  destruct Hok as (Hres & _).
  - split; [vm_compute; discriminate|vm_compute; lia].
  - rewrite Hres. vm_compute. reflexivity.
Defined.

(* ================================================================= *)
(** ** A query of punctuation only *)

Section PunctuationFacts.
Context {U : Unicode}.

Lemma lstrip_id (s : str) :
  Forall (fun c => isspace c = false) s -> lstrip s = s.
Proof.
  intros H. destruct H as [|c s Hc _]; simpl; [reflexivity|].
  now rewrite Hc.
Qed.

Lemma strip_id (s : str) :
  Forall (fun c => isspace c = false) s -> strip s = s.
Proof.
  intros H. unfold strip. rewrite (lstrip_id s H), lstrip_id.
  - apply rev_involutive.
  - apply Forall_forall. intros c Hc. apply in_rev in Hc.
    now apply (proj1 (Forall_forall _ _) H).
Qed.

Lemma filter_none {A} (f : A -> bool) (l : list A) :
  Forall (fun a => f a = false) l -> filter f l = [].
Proof.
  induction 1 as [|a l Ha _ IH]; simpl; [reflexivity|]. now rewrite Ha.
Qed.

Lemma filter_all {A} (f : A -> bool) (l : list A) :
  (forall a, In a l -> f a = true) -> filter f l = l.
Proof.
  induction l as [|a l IH]; simpl; [reflexivity|].
  intros H. rewrite (H a) by now left. f_equal. apply IH. auto.
Qed.

(** The pattern [%%] matches every text. *)
Lemma like_percent_percent (text : str) : like text (wrap []) = true.
Proof.
  unfold like. change (c_str (wrap [])) with (wrap []).
  apply like_match_wrap; [intros []|apply occurs_like_nil].
Qed.

Lemma select_like_percent_percent (t : Table) :
  select_like t (wrap []) (wrap []) (wrap []) = map row_post (rows t).
Proof.
  unfold select_like. rewrite filter_all; [reflexivity|].
  intros r _. unfold where_like. now rewrite like_percent_percent.
Qed.

End PunctuationFacts.

(** C9: a query that is not empty, has at most 100 characters and holds
    no word character and no whitespace is accepted, sanitized to the
    empty string, and answered with status 200 and every record of the
    table: the pattern of two [%] matches any title. *)
Theorem C9_punctuation_query_returns_everything {U : Unicode}
  (query : str) (w : world) :
  query <> [] ->
  List.length query <= 100 ->
  Forall (fun c => isword c = false /\ isspace c = false) query ->
  re_sub_non_word_space (strip query) = [] /\
  fst (search (Some query) w) =
    Ok {| payload := Results (map row_post (rows (db w))); status := 200 |} /\
  executed (snd (search (Some query) w)) =
    executed w ++ [Select (wrap []) (wrap []) (wrap [])].
Proof.
  intros Hne Hlen Hall.
  assert (Hstrip : strip query = query).
  { apply strip_id. apply Forall_forall. intros c Hc.
    now apply (proj1 (Forall_forall _ _) Hall c Hc). }
  assert (Hq : re_sub_non_word_space query = []).
  { apply filter_none. apply Forall_forall. intros c Hc.
    destruct (proj1 (Forall_forall _ _) Hall c Hc) as [-> ->]. reflexivity. }
  assert (Hne' : strip (get (Some query) []) <> [])
    by (simpl; now rewrite Hstrip).
  assert (Hlen' : List.length (strip (get (Some query) [])) <= 100)
    by (simpl; now rewrite Hstrip).
  rewrite (search_accepts (Some query) w Hne' Hlen').
  simpl get. rewrite Hstrip, Hq.
  split; [reflexivity|]. simpl fst. simpl snd.
  now rewrite select_like_percent_percent.
Qed.

Lemma C9_punctuation_query_returns_everything_witness :
  let query := lit "!!!" in
  query <> [] /\ List.length query <= 100 /\
  fst (search (U := ascii_unicode) (Some query) (world_of storm_table)) =
    Ok {| payload :=
            Results
              (map (stored (A := digits_affinity))
                   [sample_post "Alpha Storm" "Mon, 01 Jan 2024";
                    sample_post "Beta" "Tue, 02 Jan 2024"]);
          status := 200 |}.
Proof.
  intros query.
  assert (Hne : query <> []) by discriminate.
  assert (Hlen : List.length query <= 100) by (vm_compute; lia).
  assert (Hall : Forall (fun c => isword (U := ascii_unicode) c = false /\
                                  isspace (U := ascii_unicode) c = false)
                        query).
  { repeat constructor. }
  split; [exact Hne|]. split; [exact Hlen|].
  destruct (@C9_punctuation_query_returns_everything ascii_unicode query
              (world_of storm_table) Hne Hlen Hall) as (_ & Hres & _).
  exact Hres.
Defined.

(* ================================================================= *)
(** ** Whitespace: [strip] *)

Section StripFacts.
Context {U : Unicode}.

Lemma lstrip_no_lead (s : str) : no_lead (lstrip s).
Proof.
  induction s as [|c s IH]; simpl; [exact I|].
  destruct (isspace c) eqn:E; [exact IH|exact E].
Qed.

Lemma no_lead_lstrip (s : str) : no_lead s -> lstrip s = s.
Proof. destruct s as [|c s]; simpl; [reflexivity|]. now intros ->. Qed.

Lemma lstrip_split (s : str) :
  exists ws, s = ws ++ lstrip s /\ all_space ws.
Proof.
  induction s as [|c s (ws & Hs & Hws)]; simpl.
  - exists []. split; [reflexivity|constructor].
  - destruct (isspace c) eqn:E.
    + exists (c :: ws). split; [simpl; now f_equal|now constructor].
    + exists []. split; [reflexivity|constructor].
Qed.

Lemma lstrip_all_space (ws s : str) :
  all_space ws -> lstrip (ws ++ s) = lstrip s.
Proof. induction 1 as [|c ws Hc _ IH]; simpl; [reflexivity|now rewrite Hc]. Qed.

Lemma lstrip_nil_iff (s : str) : lstrip s = [] <-> all_space s.
Proof.
  split.
  - intros H. destruct (lstrip_split s) as (ws & Hs & Hws).
    rewrite H, app_nil_r in Hs. now subst.
  - intros H. rewrite <- (app_nil_r s). now rewrite lstrip_all_space.
Qed.

Lemma lstrip_app (s y : str) :
  lstrip s <> [] -> lstrip (s ++ y) = lstrip s ++ y.
Proof.
  induction s as [|c s IH]; simpl; [congruence|].
  destruct (isspace c); [exact IH|reflexivity].
Qed.

Lemma no_lead_app_l (x y : str) : no_lead (x ++ y) -> x <> [] -> no_lead x.
Proof. destruct x as [|c x]; simpl; [congruence|auto]. Qed.

Lemma all_space_rev (s : str) : all_space s -> all_space (rev s).
Proof.
  intros H. apply Forall_forall. intros c Hc. apply in_rev in Hc.
  exact (proj1 (Forall_forall _ _) H c Hc).
Qed.

(** [strip] removes a run of whitespace at each end and nothing else. *)
Lemma strip_split (s : str) :
  exists ws1 ws2,
    s = ws1 ++ strip s ++ ws2 /\ all_space ws1 /\ all_space ws2.
Proof.
  unfold strip.
  destruct (lstrip_split s) as (ws1 & Hs & Hws1).
  destruct (lstrip_split (rev (lstrip s))) as (ws & Hr & Hws).
  exists ws1, (rev ws). split; [|split; [exact Hws1|now apply all_space_rev]].
  rewrite <- rev_app_distr, <- Hr, rev_involutive. exact Hs.
Qed.

(** What [strip] returns neither begins nor ends with whitespace. *)
Lemma strip_trimmed (s : str) : trimmed (strip s).
Proof.
  unfold trimmed, strip. rewrite rev_involutive. split.
  - destruct (lstrip_split (rev (lstrip s))) as (ws & Hr & _).
    destruct (rev (lstrip (rev (lstrip s)))) as [|c t] eqn:E; [exact I|].
    apply (no_lead_app_l _ (rev ws)); [|discriminate].
    rewrite <- E, <- rev_app_distr, <- Hr, rev_involutive.
    apply lstrip_no_lead.
  - apply lstrip_no_lead.
Qed.

Lemma trimmed_strip (s : str) : trimmed s -> strip s = s.
Proof.
  intros [H1 H2]. unfold strip.
  rewrite (no_lead_lstrip s H1), (no_lead_lstrip (rev s) H2).
  apply rev_involutive.
Qed.

Lemma strip_idempotent (s : str) : strip (strip s) = strip s.
Proof. apply trimmed_strip, strip_trimmed. Qed.

Lemma strip_all_space (s : str) : all_space s -> strip s = [].
Proof.
  intros H. unfold strip. now rewrite (proj2 (lstrip_nil_iff s) H).
Qed.

Lemma strip_nil_iff (s : str) : strip s = [] <-> all_space s.
Proof.
  split; [|apply strip_all_space].
  intros H. destruct (strip_split s) as (ws1 & ws2 & Hs & H1 & H2).
  rewrite H in Hs. simpl in Hs. subst. now apply Forall_app.
Qed.

(** Whitespace around a string does not change what [strip] returns. *)
Lemma strip_pad (ws1 q ws2 : str) :
  all_space ws1 -> all_space ws2 -> strip (ws1 ++ q ++ ws2) = strip q.
Proof.
  intros H1 H2. unfold strip. rewrite (lstrip_all_space ws1 _ H1).
  destruct (lstrip q) as [|c t] eqn:E.
  - assert (Hq : all_space (q ++ ws2)).
    { apply Forall_app. split; [now apply lstrip_nil_iff|exact H2]. }
    now rewrite (proj2 (lstrip_nil_iff _) Hq).
  - rewrite lstrip_app by (rewrite E; discriminate).
    rewrite E, rev_app_distr, lstrip_all_space by now apply all_space_rev.
    reflexivity.
Qed.

End StripFacts.

(* ================================================================= *)
(** ** The feed file *)

Lemma all_space_forallb {U : Unicode} (s : str) :
  forallb isspace s = true <-> all_space s.
Proof.
  unfold all_space. rewrite forallb_forall, Forall_forall. reflexivity.
Qed.

(** The test [if line.strip()] passes exactly the lines that are not
    made of whitespace only. *)
Lemma truthy_strip {U : Unicode} (line : str) :
  truthy (strip line) = negb (forallb isspace line).
Proof.
  destruct (forallb isspace line) eqn:E.
  - apply all_space_forallb, strip_all_space in E. now rewrite E.
  - destruct (strip line) as [|c s] eqn:Es; [|reflexivity].
    apply strip_nil_iff, all_space_forallb in Es. congruence.
Qed.

(** X1: [read_rss_feed_urls] returns the stripped form of every line
    that is not made of whitespace only, in file order and as often as
    the line occurs, and leaves the world as it was: nothing is printed.
    Each URL it returns is non-empty, neither begins nor ends with
    whitespace and is left unchanged by another [strip].  A missing file
    gives the empty list and one printed line; any other exception raised
    while the file is opened or read leaves the function. *)
Theorem X1_read_rss_feed_urls {U : Unicode} (file_path : str)
  (lines : list str) (w : world) :
  let urls :=
    map strip (filter (fun line => negb (forallb isspace line)) lines) in
  read_rss_feed_urls file_path (FileLines lines) w = (Ok urls, w) /\
  Forall (fun u => u <> [] /\ trimmed u /\ strip u = u) urls /\
  read_rss_feed_urls file_path FileNotFound w =
    (Ok [], printed w [RssFileNotFound file_path]) /\
  (forall e, read_rss_feed_urls file_path (FileRaises e) w = (Raised e, w)).
Proof.
  cbv zeta. split; [|split; [|split; reflexivity]].
  - unfold read_rss_feed_urls, ret. do 3 f_equal.
    apply filter_ext. intros line. apply truthy_strip.
  - apply Forall_forall. intros u Hu.
    apply in_map_iff in Hu as (line & <- & Hl).
    apply filter_In in Hl as [_ Hl].
    split; [|split; [apply strip_trimmed|apply strip_idempotent]].
    intros Hs. apply strip_nil_iff, all_space_forallb in Hs.
    rewrite Hs in Hl. discriminate Hl.
Qed.

Lemma X1_read_rss_feed_urls_witness :
  read_rss_feed_urls (U := ascii_unicode) RSS_FEED_FILE
    (FileLines (sample_lines ++ sample_lines)) fresh_world =
  (Ok [lit "https://a.example/rss"; lit "https://b.example/rss";
       lit "https://a.example/rss"; lit "https://b.example/rss"],
   fresh_world).
Proof.
  destruct (@X1_read_rss_feed_urls ascii_unicode RSS_FEED_FILE
              (sample_lines ++ sample_lines) fresh_world) as (H & _).
  exact H.
Defined.

(** X2: whitespace before and after the query makes no difference to
    [search]: the answer and the world left behind are those of the query
    without it. *)
Theorem X2_search_ignores_surrounding_whitespace {U : Unicode}
  (ws1 q ws2 : str) (w : world) :
  all_space ws1 -> all_space ws2 ->
  search (Some (ws1 ++ q ++ ws2)) w = search (Some q) w.
Proof.
  intros H1 H2. unfold search. simpl get. now rewrite (strip_pad ws1 q ws2).
Qed.

Lemma X2_search_ignores_surrounding_whitespace_witness :
  let ws := [32; 9; 10]%N in
  all_space (U := ascii_unicode) ws /\
  search (U := ascii_unicode) (Some (ws ++ lit "storm" ++ ws))
         (world_of storm_table) =
  search (U := ascii_unicode) (Some (lit "storm")) (world_of storm_table).
Proof.
  intros ws.
  assert (H : all_space (U := ascii_unicode) ws) by (repeat constructor).
  split; [exact H|].
  exact (@X2_search_ignores_surrounding_whitespace ascii_unicode
           ws (lit "storm") ws (world_of storm_table) H H).
Defined.

(* ================================================================= *)
(** ** Entities *)

Lemma label_in_true (label : str) (labels : list str) :
  label_in label labels = true <-> In label labels.
Proof.
  unfold label_in. rewrite existsb_exists. split.
  - intros (l & Hl & E). apply str_eqb_eq in E. now subst.
  - intros H. exists label. split; [exact H|apply str_eqb_refl].
Qed.

(** The label sets of the four branches do not overlap. *)
Lemma is_place_exclusive (ent : str * str) :
  is_place ent = true -> is_person ent = false /\ is_group ent = false.
Proof.
  unfold is_place, is_person, is_group. intros H.
  apply label_in_true in H. simpl in H.
  destruct H as [<-|[<-|[]]]; split; reflexivity.
Qed.

Lemma is_person_exclusive (ent : str * str) :
  is_person ent = true -> is_group ent = false.
Proof.
  unfold is_person, is_group. intros H. apply str_eqb_eq in H.
  now rewrite H.
Qed.

Lemma texts_where_cons (f : str * str -> bool) (ent : str * str)
  (l : list (str * str)) :
  texts_where f (ent :: l) =
  (if f ent then [snd ent] else []) ++ texts_where f l.
Proof. unfold texts_where. simpl. now destruct (f ent). Qed.

(** The loop over the entities, from any state of the four buckets. *)
Lemma fold_add_entity (l : list (str * str)) (acc : Entities) :
  fold_left add_entity l acc =
  {| countries := countries acc ++ texts_where is_group l;
     places := places acc ++ texts_where is_place l;
     names := names acc ++ texts_where is_person l;
     other_keywords := other_keywords acc ++ texts_where is_other l |}.
Proof.
  revert acc. induction l as [|ent l IH]; intros acc.
  - simpl. unfold texts_where. simpl. rewrite !app_nil_r. now destruct acc.
  - cbn [fold_left]. rewrite IH, !texts_where_cons.
    destruct ent as [label text]. unfold add_entity, is_other.
    change (label_in label [lit "GPE"; lit "LOC"]) with (is_place (label, text)).
    change (str_eqb label (lit "PERSON")) with (is_person (label, text)).
    change (label_in label [lit "ORG"; lit "NORP"]) with (is_group (label, text)).
    destruct (is_place (label, text)) eqn:E1.
    + destruct (is_place_exclusive _ E1) as [-> ->]. simpl.
      now rewrite <- !app_assoc.
    + destruct (is_person (label, text)) eqn:E2.
      * rewrite (is_person_exclusive _ E2). simpl. now rewrite <- !app_assoc.
      * destruct (is_group (label, text)); simpl; now rewrite <- !app_assoc.
Qed.

Lemma bucket_lengths (l : list (str * str)) :
  List.length (texts_where is_group l) + List.length (texts_where is_place l)
  + List.length (texts_where is_person l)
  + List.length (texts_where is_other l) = List.length l.
Proof.
  induction l as [|ent l IH]; [reflexivity|].
  rewrite !texts_where_cons, !length_app.
  change (is_other ent)
    with (negb (is_place ent) && negb (is_person ent) && negb (is_group ent)).
  destruct (is_place ent) eqn:E1.
  - destruct (is_place_exclusive _ E1) as [-> ->]. simpl. lia.
  - destruct (is_person ent) eqn:E2.
    + rewrite (is_person_exclusive _ E2). simpl. lia.
    + destruct (is_group ent); simpl; lia.
Qed.

(** X3: [extract_keywords] sorts the recognized entities into four
    buckets by label alone: places hold the texts labelled GPE or LOC,
    names those labelled PERSON, countries those labelled ORG or NORP,
    and the last bucket all others, each in the order of recognition.
    Every entity lands in exactly one bucket, so none is lost and none is
    duplicated.  When the recognizer raises, so does the function. *)
Theorem X3_extract_keywords_buckets {L : Nlp} (text : str) :
  match ents text with
  | Ok l =>
      exists k,
        extract_keywords text = Ok k /\
        places k = texts_where is_place l /\
        names k = texts_where is_person l /\
        countries k = texts_where is_group l /\
        other_keywords k = texts_where is_other l /\
        List.length (countries k) + List.length (places k)
        + List.length (names k) + List.length (other_keywords k)
        = List.length l /\
        (forall ent, In ent l ->
           In (snd ent)
              (countries k ++ places k ++ names k ++ other_keywords k))
  | Raised x => extract_keywords text = Raised x
  end.
Proof.
  unfold extract_keywords. destruct (ents text) as [l|x]; [|reflexivity].
  eexists. split; [reflexivity|]. rewrite fold_add_entity. simpl.
  repeat (split; [reflexivity|]). split; [apply bucket_lengths|].
  intros ent Hent. rewrite !in_app_iff.
  assert (Hw : forall f, f ent = true -> In (snd ent) (texts_where f l)).
  { intros f Hf. unfold texts_where. apply in_map. now apply filter_In. }
  unfold is_other in Hw.
  destruct (is_place ent) eqn:E1; [right; left; now apply Hw|].
  destruct (is_person ent) eqn:E2; [right; right; left; now apply Hw|].
  destruct (is_group ent) eqn:E3; [left; now apply Hw|].
  right. right. right. apply (Hw is_other). unfold is_other.
  now rewrite E1, E2, E3.
Qed.

(* ================================================================= *)
(** ** The normalizer: when it raises *)

Lemma terms_raised (ts : list Tag) (x : exn) :
  terms ts = Raised x ->
  x = TypeError /\ exists t, In t ts /\ term t = None.
Proof.
  induction ts as [|t ts IH]; simpl; [discriminate|].
  destruct (term t) as [s|] eqn:E.
  - destruct (terms ts) as [l|y]; [discriminate|].
    intros H. injection H as <-.
    destruct (IH eq_refl) as (-> & t' & Ht' & Hn).
    split; [reflexivity|]. exists t'. split; [now right|exact Hn].
  - intros H. injection H as <-. split; [reflexivity|].
    exists t. split; [now left|exact E].
Qed.

Section NormalizerErrors.
Context {U : Unicode} {L : Nlp}.

(** X4: [extract_feed_entry] raises in three cases and no other, tried in
    this order: the [TypeError] of [', '.join] when the tags field is
    present and one of the tags has no term; else what the sentiment
    analysis raises; else what the entity recognizer raises.  In every
    other case it returns a post, whatever fields are missing. *)
Theorem X4_extract_feed_entry_raises (e : RawEntry) :
  let text :=
    re_sub_non_ascii (get (e_title e) (lit "No Title")) ++ lit " " ++
    re_sub_non_ascii (get (e_description e) (lit "No Description")) in
  ((exists ts t, e_tags e = Some ts /\ In t ts /\ term t = None) ->
   extract_feed_entry e = Raised TypeError) /\
  ((forall ts t, e_tags e = Some ts -> In t ts -> term t <> None) ->
   match polarity text with
   | Raised x => extract_feed_entry e = Raised x
   | Ok _ =>
       match ents text with
       | Raised x => extract_feed_entry e = Raised x
       | Ok _ => exists p, extract_feed_entry e = Ok p
       end
   end).
Proof.
  cbv zeta. unfold extract_feed_entry, categories_of. split.
  - intros (ts & t & -> & Ht & Hn).
    destruct (terms ts) as [l|x] eqn:E.
    + apply terms_ok in E. apply (in_map term) in Ht.
      rewrite E, Hn in Ht. apply in_map_iff in Ht as (s0 & Hs & _).
      discriminate.
    + now destruct (terms_raised ts x E) as (-> & _).
  - intros Hall.
    assert (Hc : exists c,
               match e_tags e with
               | Some ts => match terms ts with
                            | Ok l => Ok (join (lit ", ") l)
                            | Raised x => Raised x
                            end
               | None => Ok (lit "Uncategorized")
               end = Ok c).
    { destruct (e_tags e) as [ts|]; [|eexists; reflexivity].
      destruct (terms ts) as [l|x] eqn:E; [eexists; reflexivity|].
      destruct (terms_raised ts x E) as (_ & t & Ht & Hn).
      exfalso. exact (Hall ts t eq_refl Ht Hn). }
    destruct Hc as [c ->]. unfold analyze_sentiment, extract_keywords.
    destruct (polarity _) as [[| |]|x]; try reflexivity;
      (destruct (ents _) as [l|x]; [eexists; reflexivity|reflexivity]).
Qed.

End NormalizerErrors.

Lemma X4_extract_feed_entry_raises_witness :
  extract_feed_entry (U := ascii_unicode) (L := quiet_nlp) entry_with_bad_tag
    = Raised TypeError.
Proof.
  apply (proj1 (@X4_extract_feed_entry_raises ascii_unicode quiet_nlp
                  entry_with_bad_tag)).
  eexists _, {| term := None |}. split; [reflexivity|].
  split; [now left|reflexivity].
Defined.

(* ================================================================= *)
(** ** The sector classifier: what it returns *)

Lemma any_keyword_true (text_lower : str) (keywords : list str) :
  any_keyword text_lower keywords = true <->
  exists k, In k keywords /\ occurs k text_lower.
Proof.
  unfold any_keyword. rewrite existsb_exists.
  split; intros (k & Hk & H); exists k; (split; [exact Hk|]);
    now apply contains_spec.
Qed.

(** The loop returns the sector of the first entry of the table one of
    whose keywords is in the text. *)
Lemma first_sector_some (table : list (str * list str)) (t s : str) :
  first_sector table t = Some s <->
  exists before kws after,
    table = before ++ (s, kws) :: after /\
    any_keyword t kws = true /\
    Forall (fun entry => any_keyword t (snd entry) = false) before.
Proof.
  induction table as [|[s0 kws0] table IH]; simpl.
  - split; [discriminate|]. intros (before & kws & after & H & _).
    destruct before; discriminate.
  - destruct (any_keyword t kws0) eqn:E.
    + split.
      * intros H. injection H as <-. exists [], kws0, table.
        split; [reflexivity|]. split; [exact E|constructor].
      * intros (before & kws & after & H & Hk & Hb).
        destruct before as [|b before].
        -- simpl in H. now injection H as <- _ _.
        -- simpl in H. injection H as <- _.
           inversion Hb as [|? ? Hb0 _]; subst. simpl in Hb0. congruence.
    + rewrite IH. split.
      * intros (before & kws & after & -> & Hk & Hb).
        exists ((s0, kws0) :: before), kws, after.
        split; [reflexivity|]. split; [exact Hk|now constructor].
      * intros (before & kws & after & H & Hk & Hb).
        destruct before as [|b before].
        -- simpl in H. injection H as _ Hkws _. subst kws0. congruence.
        -- simpl in H. injection H as _ Htable. subst table.
           inversion Hb; subst. now exists before, kws, after.
Qed.

Lemma first_sector_none (table : list (str * list str)) (t : str) :
  first_sector table t = None <->
  Forall (fun entry => any_keyword t (snd entry) = false) table.
Proof.
  induction table as [|[s0 kws0] table IH]; simpl.
  - split; [constructor|reflexivity].
  - destruct (any_keyword t kws0) eqn:E.
    + split; [discriminate|]. intros H. inversion H; subst. simpl in *.
      congruence.
    + rewrite IH. split; [now constructor|]. intros H. now inversion H.
Qed.

Lemma first_sector_In (table : list (str * list str)) (t s : str) :
  first_sector table t = Some s -> In s (map fst table).
Proof.
  intros H. apply first_sector_some in H as (before & kws & after & -> & _).
  rewrite map_app, in_app_iff. right. now left.
Qed.

Lemma general_not_in_table : ~ In (lit "General") (map fst sectors).
Proof.
  simpl. intros H.
  repeat (destruct H as [H|H]; [discriminate H|]). exact H.
Qed.

Section SectorResults.
Context {U : Unicode}.

Lemma identify_sector_general (text : str) :
  identify_sector text = lit "General" <->
  first_sector sectors (lower text) = None.
Proof.
  unfold identify_sector.
  destruct (first_sector sectors (lower text)) as [s|] eqn:E.
  - split; [|discriminate]. intros ->.
    apply first_sector_In in E. now apply general_not_in_table in E.
  - split; reflexivity.
Qed.

Lemma lower_app (a b : str) : lower (a ++ b) = lower a ++ lower b.
Proof. unfold lower. apply flat_map_app. Qed.

(** X5: [identify_sector] is a first-match lookup of the table against
    the lower-cased text, keyword by keyword as written in the table.  It
    answers a sector exactly when that sector's entry is the first one
    with a keyword that is a substring of the lower-cased text, and
    General exactly when no keyword of any entry is. *)
Theorem X5_identify_sector_first_match (text s : str) :
  (identify_sector text = lit "General" <->
   forall (sector : str) (kws : list str) (k : str),
     In (sector, kws) sectors -> In k kws -> ~ occurs k (lower text)) /\
  (s <> lit "General" ->
   (identify_sector text = s <->
    exists before kws after,
      sectors = before ++ (s, kws) :: after /\
      (exists k, In k kws /\ occurs k (lower text)) /\
      (forall (sector : str) (kws' : list str) (k : str),
         In (sector, kws') before -> In k kws' -> ~ occurs k (lower text)))).
Proof.
  assert (Hnone : forall table,
             Forall (fun entry => any_keyword (lower text) (snd entry) = false)
                    table <->
             forall (sector : str) (kws : list str) (k : str),
               In (sector, kws) table -> In k kws -> ~ occurs k (lower text)).
  { intros table. rewrite Forall_forall. split.
    - intros H sector kws k Hin Hk Hocc.
      specialize (H _ Hin). simpl in H.
      assert (any_keyword (lower text) kws = true)
        by (apply any_keyword_true; eauto).
      congruence.
    - intros H [sector kws] Hin. simpl.
      destruct (any_keyword (lower text) kws) eqn:E; [|reflexivity].
      apply any_keyword_true in E as (k & Hk & Hocc).
      exfalso. exact (H sector kws k Hin Hk Hocc). }
  split.
  - now rewrite identify_sector_general, first_sector_none, Hnone.
  - intros Hs.
    assert (Hid : identify_sector text = s <->
                  first_sector sectors (lower text) = Some s).
    { unfold identify_sector.
      destruct (first_sector sectors (lower text)) as [s'|].
      - split; [now intros ->|now intros [= ->]].
      - split; [intros H; now symmetry in H|discriminate]. }
    rewrite Hid, first_sector_some. split.
    + intros (before & kws & after & H & Hk & Hb).
      exists before, kws, after. split; [exact H|].
      split; [now apply any_keyword_true|now apply Hnone].
    + intros (before & kws & after & H & Hk & Hb).
      exists before, kws, after. split; [exact H|].
      split; [now apply any_keyword_true|now apply Hnone].
Qed.

(** X6: the classifier looks for keywords anywhere in the text, so text
    added before or after never turns a classified text into General. *)
Theorem X6_more_text_keeps_a_sector (before text after : str) :
  identify_sector text <> lit "General" ->
  identify_sector (before ++ text ++ after) <> lit "General".
Proof.
  intros H Hg. apply H.
  apply identify_sector_general. apply identify_sector_general in Hg.
  apply first_sector_none. apply first_sector_none in Hg.
  apply Forall_forall. intros [sector kws] Hin. simpl.
  pose proof (proj1 (Forall_forall _ _) Hg _ Hin) as Hfalse. simpl in Hfalse.
  destruct (any_keyword (lower text) kws) eqn:E; [|reflexivity].
  apply any_keyword_true in E as (k & Hk & pre & suf & Hocc).
  assert (any_keyword (lower (before ++ text ++ after)) kws = true).
  { apply any_keyword_true. exists k. split; [exact Hk|].
    exists (lower before ++ pre), (suf ++ lower after).
    rewrite !lower_app, Hocc. now rewrite <- !app_assoc. }
  congruence.
Qed.

End SectorResults.

Lemma X6_more_text_keeps_a_sector_witness :
  identify_sector (U := ascii_unicode) (lit "Oil prices") <> lit "General" /\
  identify_sector (U := ascii_unicode)
    (lit "Breaking: " ++ lit "Oil prices" ++ lit " rise") <> lit "General".
Proof.
  assert (H : identify_sector (U := ascii_unicode) (lit "Oil prices")
              <> lit "General") by discriminate.
  split; [exact H|].
  exact (@X6_more_text_keeps_a_sector ascii_unicode
           (lit "Breaking: ") (lit "Oil prices") (lit " rise") H).
Defined.

(** X7: whatever the entry, the sector stored is one of the eight names
    of the table or General, and the sentiment stored is Positive,
    Negative or Neutral. *)
Theorem X7_sector_and_sentiment_names {U : Unicode} {L : Nlp}
  (e : RawEntry) (p : Post) :
  extract_feed_entry e = Ok p ->
  In (sector p) sector_names /\ In (sentiment p) sentiment_names.
Proof.
  intros H. apply extract_feed_entry_sector in H as (_ & -> & Hs).
  split.
  - unfold sector_names, identify_sector. apply in_or_app.
    destruct (first_sector sectors _) as [s|] eqn:E.
    + left. now apply first_sector_In in E.
    + right. now left.
  - unfold sentiment_names. unfold analyze_sentiment in Hs.
    destruct (polarity _) as [[| |]|x]; try discriminate Hs;
      injection Hs as <-; simpl; tauto.
Qed.

Lemma X7_sector_and_sentiment_names_witness :
  exists p,
    extract_feed_entry (U := ascii_unicode) (L := quiet_nlp)
      (titled "Army drill" None) = Ok p /\
    In (sector p) sector_names /\ In (sentiment p) sentiment_names.
Proof.
  eexists. split; [reflexivity|].
  exact (@X7_sector_and_sentiment_names ascii_unicode quiet_nlp
           (titled "Army drill" None) _ eq_refl).
Defined.

Lemma X5_identify_sector_first_match_witness :
  lit "Defense" <> lit "General" /\
  identify_sector (U := ascii_unicode) (lit "The ARMY and the Election")
    = lit "Defense".
Proof.
  assert (H : lit "Defense" <> lit "General") by discriminate.
  split; [exact H|].
  apply (proj2 (@X5_identify_sector_first_match ascii_unicode
                  (lit "The ARMY and the Election") (lit "Defense")) H).
  eexists [], _, _. split; [reflexivity|]. split.
  - exists (lit "army"). split; [simpl; tauto|].
    exists (lit "the "), (lit " and the election"). reflexivity.
  - intros sector kws' k [].
Defined.

(* ================================================================= *)
(** ** The store: ids and the order of the rows *)

Lemma max_id_le (rs : list Row) (n : Z) :
  (0 <= n)%Z -> Forall (fun i => (0 < i <= n)%Z) (map row_id rs) ->
  (max_id rs <= n)%Z.
Proof.
  intros Hn. induction rs as [|r rs IH]; simpl; [lia|].
  intros H. inversion H; subst. specialize (IH H3). lia.
Qed.

Lemma StronglySorted_snoc (l : list Z) (x : Z) :
  StronglySorted Z.lt l -> Forall (fun i => (i < x)%Z) l ->
  StronglySorted Z.lt (l ++ [x]).
Proof.
  induction 1 as [|a l Hs IH Ha]; intros Hx; simpl.
  - repeat constructor.
  - inversion Hx; subst. constructor; [now apply IH|].
    apply Forall_app. split; [exact Ha|]. now repeat constructor.
Qed.

(** With the ids in order under the counter, the id drawn is the counter
    plus one. *)
Lemma new_id_is_next (t : Table) :
  ids_ok t -> (Z.max (seq t) (max_id (rows t)) + 1 = seq t + 1)%Z.
Proof.
  intros (_ & Hb & Hs). pose proof (max_id_le (rows t) (seq t) Hs Hb). lia.
Qed.

Section StoreIds.
Context {A : Affinity}.

Lemma upsert_present (t : Table) (p : Post) :
  In (post_key p) (map key (rows t)) ->
  fst (upsert t p) =
    {| rows := update_rows p (rows t);
       seq := (Z.max (seq t) (max_id (rows t)) + 1)%Z |}.
Proof.
  intros H. unfold upsert. fold (post_key p).
  destruct (has_key (post_key p) (rows t)) eqn:E; [reflexivity|].
  now apply has_key_false in E.
Qed.

Lemma upsert_absent (t : Table) (p : Post) :
  ~ In (post_key p) (map key (rows t)) ->
  fst (upsert t p) =
    {| rows := rows t ++ [{| row_id := (Z.max (seq t) (max_id (rows t)) + 1)%Z;
                             row_post := stored p |}];
       seq := (Z.max (seq t) (max_id (rows t)) + 1)%Z |}.
Proof.
  intros H. apply has_key_false in H. unfold upsert. fold (post_key p).
  now rewrite H.
Qed.

Lemma upsert_ids_ok (t : Table) (p : Post) :
  ids_ok t -> ids_ok (fst (upsert t p)).
Proof.
  intros Hok. pose proof (new_id_is_next t Hok) as Hnew.
  destruct Hok as (Hsorted & Hb & Hs).
  assert (Hb' : Forall (fun i => (0 < i <= seq t + 1)%Z) (map row_id (rows t))).
  { eapply Forall_impl; [|exact Hb]. simpl. intros. lia. }
  unfold upsert, ids_ok.
  destruct (has_key (affinity (published_at p)) (rows t)); simpl; rewrite Hnew.
  - rewrite update_rows_ids. split; [exact Hsorted|]. split; [exact Hb'|lia].
  - rewrite map_app. simpl. split; [|split; [|lia]].
    + apply StronglySorted_snoc; [exact Hsorted|].
      eapply Forall_impl; [|exact Hb]. simpl. intros. lia.
    + apply Forall_app. split; [exact Hb'|]. repeat constructor; lia.
Qed.

Lemma upsert_all_ids_ok (ps : list Post) (t : Table) :
  ids_ok t -> ids_ok (upsert_all t ps).
Proof.
  revert t. induction ps as [|p ps IH]; intros t Ht; simpl; [exact Ht|].
  apply IH. now apply upsert_ids_ok.
Qed.

(** Every upsert moves the counter, whether it inserts or updates. *)
Lemma upsert_seq (t : Table) (p : Post) :
  ids_ok t -> seq (fst (upsert t p)) = (seq t + 1)%Z.
Proof.
  intros Hok. pose proof (new_id_is_next t Hok) as Hnew. unfold upsert.
  destruct (has_key (affinity (published_at p)) (rows t)); simpl; exact Hnew.
Qed.

Lemma upsert_all_seq (ps : list Post) (t : Table) :
  ids_ok t -> seq (upsert_all t ps) = (seq t + Z.of_nat (List.length ps))%Z.
Proof.
  revert t. induction ps as [|p ps IH]; intros t Ht.
  - simpl. lia.
  - change (upsert_all t (p :: ps)) with (upsert_all (fst (upsert t p)) ps).
    rewrite IH by now apply upsert_ids_ok.
    rewrite (upsert_seq t p Ht). cbn [List.length]. lia.
Qed.

(** X8: ids are handed out in increasing order and never twice.  On a
    table whose rows stand in id order under the counter, an upsert moves
    the counter up by one; when the value the column takes for the post's
    [published_at] is in the table it leaves the ids and keys of all rows
    where they are; when it is not it appends one row whose id is the new
    counter, above every id handed out before, holding the post as the
    columns take it; and the table it leaves is again in id order under
    the counter. *)
Theorem X8_upsert_ids (t : Table) (p : Post) :
  ids_ok t ->
  let t' := fst (upsert t p) in
  ids_ok t' /\
  seq t' = (seq t + 1)%Z /\
  (In (post_key p) (map key (rows t)) ->
   map row_id (rows t') = map row_id (rows t) /\
   map key (rows t') = map key (rows t)) /\
  (~ In (post_key p) (map key (rows t)) ->
   rows t' =
     rows t ++ [{| row_id := (seq t + 1)%Z; row_post := stored p |}] /\
   Forall (fun i => (i < seq t + 1)%Z) (map row_id (rows t))).
Proof.
  intros Hok t'. pose proof (new_id_is_next t Hok) as Hnew.
  split; [now apply upsert_ids_ok|]. split; [|split].
  - unfold t', upsert.
    destruct (has_key (affinity (published_at p)) (rows t)); simpl; exact Hnew.
  - intros Hin. unfold t'. rewrite (upsert_present t p Hin). simpl.
    now rewrite update_rows_ids, update_rows_keys.
  - intros Hout. unfold t'. rewrite (upsert_absent t p Hout). simpl.
    rewrite Hnew. split; [reflexivity|].
    destruct Hok as (_ & Hb & _).
    eapply Forall_impl; [|exact Hb]. simpl. intros. lia.
Qed.

End StoreIds.

Lemma empty_ids_ok : ids_ok Store.empty.
Proof. repeat split; simpl; try constructor; lia. Qed.

Lemma X8_upsert_ids_witness :
  let t := upsert_all (A := digits_affinity) Store.empty
             [sample_post "First" "2024"; sample_post "Second" "2025"] in
  let p := sample_post "Third" "02024" in
  ids_ok t /\
  In (post_key (A := digits_affinity) p) (map key (rows t)) /\
  map row_id (rows (fst (upsert (A := digits_affinity) t p))) = [1; 2]%Z /\
  seq (fst (upsert (A := digits_affinity) t p)) = 3%Z.
Proof.
  intros t p.
  assert (H : ids_ok t) by (apply upsert_all_ids_ok, empty_ids_ok).
  assert (Hin : In (post_key (A := digits_affinity) p) (map key (rows t)))
    by (left; reflexivity).
  split; [exact H|]. split; [exact Hin|].
  destruct (@X8_upsert_ids digits_affinity t p H) as (_ & Hseq & Hold & _).
  split; [exact (proj1 (Hold Hin))|exact Hseq].
Defined.

(* ================================================================= *)
(** ** Runs of upserts *)

Section UpsertRuns.
Context {A : Affinity}.

Lemma upsert_all_app (t : Table) (ps qs : list Post) :
  upsert_all t (ps ++ qs) = upsert_all (upsert_all t ps) qs.
Proof. unfold upsert_all. apply fold_left_app. Qed.

Lemma upsert_all_cons (t : Table) (p : Post) (ps : list Post) :
  upsert_all t (p :: ps) = upsert_all (fst (upsert t p)) ps.
Proof. reflexivity. Qed.

(** An upsert keeps every row in its place with its id and its key, and
    adds at most one row at the end. *)
Lemma upsert_keeps_places (t : Table) (p : Post) :
  exists added,
    map (fun r => (row_id r, key r)) (rows (fst (upsert t p))) =
    map (fun r => (row_id r, key r)) (rows t) ++ added /\
    List.length added <= 1.
Proof.
  unfold upsert. destruct (has_key (affinity (published_at p)) (rows t)); simpl.
  - exists []. rewrite app_nil_r. split; [|simpl; lia].
    unfold update_rows. rewrite map_map. apply map_ext. intros r.
    now destruct (value_eqb (key r) (affinity (published_at p))).
  - eexists [_]. rewrite map_app. split; [reflexivity|simpl; lia].
Qed.

Lemma upsert_all_keeps_places (ps : list Post) (t : Table) :
  exists added,
    map (fun r => (row_id r, key r)) (rows (upsert_all t ps)) =
    map (fun r => (row_id r, key r)) (rows t) ++ added /\
    List.length added <= List.length ps.
Proof.
  revert t. induction ps as [|p ps IH]; intros t.
  - exists []. rewrite app_nil_r. split; [reflexivity|simpl; lia].
  - rewrite upsert_all_cons.
    destruct (IH (fst (upsert t p))) as (a2 & H2 & L2).
    destruct (upsert_keeps_places t p) as (a1 & H1 & L1).
    exists (a1 ++ a2). rewrite H2, H1, <- app_assoc.
    split; [reflexivity|]. rewrite length_app. simpl. lia.
Qed.

(** Rows under keys the run does not carry are left as they were. *)
Lemma upsert_all_other_rows (ps : list Post) (t : Table) (r : Row) :
  ~ In (key r) (map post_key ps) ->
  (In r (rows (upsert_all t ps)) <-> In r (rows t)).
Proof.
  revert t. induction ps as [|p ps IH]; intros t Hk; [reflexivity|].
  rewrite upsert_all_cons, IH by (simpl in Hk; tauto).
  apply upsert_other_rows. simpl in Hk. intros E. apply Hk. left.
  now rewrite E.
Qed.

Lemma latest_In (ps : list Post) (k : value) (q : Post) :
  latest ps k = Some q -> In q ps /\ post_key q = k.
Proof.
  induction ps as [|p ps IH]; simpl; [discriminate|].
  destruct (latest ps k) as [q'|].
  - intros H. injection H as ->. destruct (IH eq_refl). tauto.
  - destruct (value_eqb (post_key p) k) eqn:E; [|discriminate].
    intros H. injection H as ->. apply value_eqb_eq in E. tauto.
Qed.

Lemma latest_none (ps : list Post) (k : value) :
  latest ps k = None <-> ~ In k (map post_key ps).
Proof.
  induction ps as [|p ps IH]; simpl; [tauto|].
  destruct (latest ps k) as [q|].
  - split; [discriminate|]. intros H. exfalso.
    assert (Hn : ~ In k (map post_key ps)) by tauto.
    apply IH in Hn. discriminate.
  - destruct (value_eqb (post_key p) k) eqn:E.
    + apply value_eqb_eq in E. split; [discriminate|tauto].
    + apply value_eqb_neq in E. split; [|reflexivity].
      intros _ [H|H]; [contradiction|]. now apply IH.
Qed.

(** After a run of upserts, a row whose key the run carries holds the
    values of the last post of the run under that key. *)
Lemma upsert_all_holds_latest (ps : list Post) (t : Table) (r : Row) (q : Post) :
  In r (rows (upsert_all t ps)) -> latest ps (key r) = Some q ->
  row_post r = stored q.
Proof.
  revert t. induction ps as [|p ps IH]; intros t Hr Hl; [discriminate|].
  rewrite upsert_all_cons in Hr. simpl in Hl.
  destruct (latest ps (key r)) as [q'|] eqn:E.
  - injection Hl as <-. now apply (IH (fst (upsert t p))).
  - destruct (value_eqb (post_key p) (key r)) eqn:Ek; [|discriminate].
    injection Hl as <-. apply value_eqb_eq in Ek.
    apply latest_none in E.
    apply (proj1 (upsert_all_other_rows ps _ r E)) in Hr.
    apply (upsert_row_post t p r Hr). now rewrite <- Ek.
Qed.

Lemma upsert_all_keys_present (ps : list Post) (t : Table) (p : Post) :
  In p ps -> In (post_key p) (map key (rows (upsert_all t ps))).
Proof.
  revert t. induction ps as [|p0 ps IH]; intros t; [intros []|].
  rewrite upsert_all_cons. intros [->|H]; [|now apply IH].
  destruct (upsert_all_keeps_places ps (fst (upsert t p))) as (a & Ha & _).
  pose proof (upsert_key_present t p) as Hk.
  apply (f_equal (map snd)) in Ha. rewrite map_app, !map_map in Ha.
  simpl in Ha. change (fun x : Row => key x) with key in Ha.
  rewrite Ha. apply in_or_app. now left.
Qed.

(** When every key of the run is in the table already, the run rewrites
    the rows in place: each row takes the last post under its key. *)
Lemma upsert_all_in_place (ps : list Post) (t : Table) :
  (forall p, In p ps -> In (post_key p) (map key (rows t))) ->
  rows (upsert_all t ps) =
  map (fun r => match latest ps (key r) with
                | Some q => {| row_id := row_id r; row_post := stored q |}
                | None => r
                end) (rows t).
Proof.
  revert t. induction ps as [|p ps IH]; intros t Hall.
  - simpl. now rewrite map_id.
  - rewrite upsert_all_cons.
    assert (Hp : In (post_key p) (map key (rows t)))
      by (apply Hall; now left).
    rewrite IH.
    + rewrite (upsert_present t p Hp). simpl. unfold update_rows.
      rewrite map_map. apply map_ext. intros r. fold (post_key p).
      destruct (value_eqb (key r) (post_key p)) eqn:E.
      * apply value_eqb_eq in E. rewrite (do_update_post p r E).
        change (key {| row_id := row_id r; row_post := stored p |})
          with (post_key p).
        rewrite <- E. cbn [row_id].
        destruct (latest ps (key r)); [reflexivity|].
        now rewrite E, value_eqb_refl.
      * destruct (latest ps (key r)); [reflexivity|].
        apply value_eqb_neq in E.
        destruct (value_eqb (post_key p) (key r)) eqn:E';
          [|reflexivity].
        apply value_eqb_eq in E'. congruence.
    + intros q Hq. rewrite (upsert_present t p Hp). simpl.
      rewrite update_rows_keys. apply Hall. now right.
Qed.

(** Running the same posts through the table a second time changes no
    row. *)
Lemma upsert_all_twice (ps : list Post) (t : Table) :
  rows (upsert_all (upsert_all t ps) ps) = rows (upsert_all t ps).
Proof.
  rewrite upsert_all_in_place
    by (intros p Hp; now apply upsert_all_keys_present).
  rewrite <- (map_id (rows (upsert_all t ps))) at 2.
  apply map_ext_in. intros r Hr.
  destruct (latest ps (key r)) as [q|] eqn:E; [|reflexivity].
  rewrite <- (upsert_all_holds_latest ps t r q Hr E). now destruct r.
Qed.

(** Posts under keys that are new and all different are appended as they
    come. *)
Lemma upsert_all_new_keys (ps : list Post) (t : Table) :
  NoDup (map post_key ps) ->
  (forall p, In p ps -> ~ In (post_key p) (map key (rows t))) ->
  map row_post (rows (upsert_all t ps)) =
  map row_post (rows t) ++ map stored ps.
Proof.
  revert t. induction ps as [|p ps IH]; intros t Hnd Hnew.
  - simpl. now rewrite app_nil_r.
  - rewrite upsert_all_cons. inversion Hnd as [|? ? Hp Hnd']; subst.
    assert (Hout : ~ In (post_key p) (map key (rows t)))
      by (apply Hnew; now left).
    rewrite IH.
    + rewrite (upsert_absent t p Hout). simpl.
      now rewrite map_app, <- app_assoc.
    + exact Hnd'.
    + intros q Hq. rewrite (upsert_absent t p Hout). simpl.
      rewrite map_app, in_app_iff. simpl. intros [H|[H|[]]].
      * apply (Hnew q); [now right|exact H].
      * apply Hp. unfold key in H. simpl in H. fold (post_key p) in H.
        rewrite H. now apply in_map.
Qed.

End UpsertRuns.

(* ================================================================= *)
(** ** The table a cycle leaves *)

Lemma upsert_entry_db {A : Affinity} (o : db_outcome) (p : Post) (n : Z)
  (w : world) :
  db (snd (upsert_entry o p n w)) =
  match o with
  | DbOk => fst (upsert (db w) p)
  | DbExecuteFails | DbCommitFails | DbOtherFailure _ => db w
  end.
Proof.
  destruct o; unfold upsert_entry, bind, get_db, upsert; simpl;
    try destruct (has_key (affinity (published_at p)) (rows (db w))); reflexivity.
Qed.

Lemma search_db {U : Unicode} (arg : option str) (w : world) :
  db (snd (search arg w)) = db w.
Proof.
  unfold search.
  destruct (match strip (get arg []) with [] => true | _ :: _ => false end
            || Nat.ltb 100 (List.length (strip (get arg [])))); reflexivity.
Qed.

Section CycleTable.
Context {U : Unicode} {L : Nlp} {A : Affinity}.

Lemma entry_posts_cons (e : entry_run) (es : list entry_run) :
  entry_posts (e :: es) =
  match extract_feed_entry (raw e), engine e with
  | Ok p, DbOk => p :: entry_posts es
  | _, _ => entry_posts es
  end.
Proof. reflexivity. Qed.

(** The loop over the entries leaves the table that the posts committed
    so far make of it; when it returns, those are all the posts of the
    entries. *)
Lemma for_entries_db (es : list entry_run) (n : Z) (w : world) :
  exists ps rest,
    entry_posts es = ps ++ rest /\
    db (snd (for_entries es n w)) = upsert_all (db w) ps /\
    (forall m, fst (for_entries es n w) = Ok m -> rest = []).
Proof.
  revert n w. induction es as [|e es IH]; intros n w.
  - exists [], []. repeat split.
  - rewrite entry_posts_cons.
    destruct (extract_feed_entry (raw e)) as [p|x] eqn:E.
    + rewrite (for_entries_cons_ok e es n w p E).
      pose proof (upsert_entry_db (engine e) p n w) as Hdb.
      destruct (engine e) as [| | |x] eqn:Eo.
      * destruct (upsert_entry_pair DbOk p n w I) as (w1 & Hrun).
        rewrite Hrun in Hdb. simpl in Hdb.
        rewrite (bind_ok _ _ _ _ _ Hrun).
        destruct (IH (n + 1)%Z w1) as (ps & rest & Hps & Hd & Hr).
        exists (p :: ps), rest. rewrite Hps. split; [reflexivity|].
        split; [|exact Hr]. now rewrite Hd, Hdb.
      * destruct (upsert_entry_pair DbExecuteFails p n w I) as (w1 & Hrun).
        rewrite Hrun in Hdb. simpl in Hdb.
        rewrite (bind_ok _ _ _ _ _ Hrun).
        destruct (IH n w1) as (ps & rest & Hps & Hd & Hr).
        exists ps, rest. split; [exact Hps|].
        split; [|exact Hr]. now rewrite Hd, Hdb.
      * destruct (upsert_entry_pair DbCommitFails p n w I) as (w1 & Hrun).
        rewrite Hrun in Hdb. simpl in Hdb.
        rewrite (bind_ok _ _ _ _ _ Hrun).
        destruct (IH (n + 1)%Z w1) as (ps & rest & Hps & Hd & Hr).
        exists ps, rest. split; [exact Hps|].
        split; [|exact Hr]. now rewrite Hd, Hdb.
      * rewrite (bind_raised _ _ _ _ _ (upsert_entry_raises x p n w)).
        exists [], (entry_posts es). repeat split. discriminate.
    + rewrite (for_entries_cons_raised e es n w x E).
      exists [], (entry_posts es). repeat split. discriminate.
Qed.

Lemma for_feeds_db (fs : list feed_run) (total : Z) (w : world) :
  exists ps rest,
    committed_posts fs = ps ++ rest /\
    db (snd (for_feeds fs total w)) = upsert_all (db w) ps /\
    (forall m, fst (for_feeds fs total w) = Ok m -> rest = []).
Proof.
  revert total w. induction fs as [|f fs IH]; intros total w.
  - exists [], []. repeat split.
  - rewrite for_feeds_cons. unfold committed_posts. cbn [flat_map].
    fold (committed_posts fs). unfold feed_posts at 1.
    destruct (fetched f) as [x|[|] es].
    + exists [], (committed_posts fs). repeat split. discriminate.
    + destruct (IH total (printed w [FetchingFeed (feed_url f);
                                     ErrorParsingFeed (feed_url f)]))
        as (ps & rest & Hps & Hd & Hr).
      exists ps, rest. now repeat split.
    + destruct (for_entries_db es 0 (printed w [FetchingFeed (feed_url f)]))
        as (ps1 & rest1 & Hps1 & Hd1 & Hr1).
      destruct (for_entries es 0 _) as [[n|x] w1]; simpl in Hd1, Hr1.
      * rewrite (Hr1 n eq_refl), app_nil_r in Hps1.
        destruct (IH (total + n)%Z (printed w1 [CompletedFeed (feed_url f) n]))
          as (ps & rest & Hps & Hd & Hr).
        exists (ps1 ++ ps), rest. rewrite Hps1, Hps, app_assoc.
        split; [reflexivity|]. split; [|exact Hr].
        rewrite Hd. simpl. now rewrite Hd1, upsert_all_app.
      * exists ps1, (rest1 ++ committed_posts fs).
        rewrite Hps1, app_assoc. repeat split; [exact Hd1|discriminate].
Qed.

Lemma fetch_feeds_db (fs : list feed_run) (w : world) :
  exists ps rest,
    committed_posts fs = ps ++ rest /\
    db (snd (fetch_feeds fs w)) = upsert_all (db w) ps /\
    (Forall uneventful fs -> rest = []).
Proof.
  destruct fs as [|f fs].
  - exists [], []. repeat split.
  - rewrite fetch_feeds_cons.
    destruct (for_feeds_db (f :: fs) 0 (printed w [StartingFetch]))
      as (ps & rest & Hps & Hd & Hr).
    exists ps, rest. split; [exact Hps|].
    pose proof (fun H => proj1 (for_feeds_returns (f :: fs) 0
                                  (printed w [StartingFetch]) H)) as Hret.
    destruct (for_feeds (f :: fs) 0 _) as [[t|x] w']; simpl in *.
    + split; [exact Hd|]. intros _. now apply (Hr t).
    + split; [exact Hd|]. intros H. specialize (Hret H). discriminate.
Qed.

(** The whole function leaves the table a run of upserts makes of the
    one it found. *)
Lemma fetch_blog_posts_db (file : feed_file) (answers : nat -> parsed)
  (w : world) :
  exists ps, db (snd (fetch_blog_posts file answers w)) = upsert_all (db w) ps.
Proof.
  destruct file as [|lines|e].
  - exists []. now rewrite fetch_blog_posts_not_found.
  - rewrite fetch_blog_posts_lines.
    destruct (fetch_feeds_db
                (feeds_from 0
                   (map strip (filter (fun line => truthy (strip line)) lines))
                   answers) w) as (ps & _ & _ & H & _).
    now exists ps.
  - exists []. now rewrite fetch_blog_posts_file_raises.
Qed.

Lemma entry_posts_length (es : list entry_run) :
  (Z.of_nat (List.length (entry_posts es)) <= ran_count es)%Z.
Proof.
  induction es as [|e es IH]; [unfold ran_count; simpl; lia|].
  rewrite entry_posts_cons, ran_count_cons.
  destruct (extract_feed_entry (raw e)) as [p|x];
    destruct (engine e); simpl statement_ran; cbn [List.length]; lia.
Qed.

Lemma ran_count_nonneg (es : list entry_run) : (0 <= ran_count es)%Z.
Proof. unfold ran_count. lia. Qed.

Lemma committed_posts_length (fs : list feed_run) :
  (Z.of_nat (List.length (committed_posts fs)) <= total_count fs)%Z.
Proof.
  induction fs as [|f fs IH]; [simpl; lia|].
  rewrite total_count_cons. unfold committed_posts. cbn [flat_map].
  fold (committed_posts fs). rewrite length_app.
  unfold feed_posts, feed_count.
  destruct (fetched f) as [x|[|] es]; simpl List.length; try lia.
  pose proof (entry_posts_length es). lia.
Qed.

End CycleTable.

(** X9: every table the running program can hold meets its schema.  From
    [init_db] on, through any number of fetch cycles (with whatever
    failures) and searches, [published_at] stays unique, ids stay unique,
    the rows stand in increasing id order and no id is above the
    counter. *)
Theorem X9_reachable_tables_meet_the_schema
  {U : Unicode} {L : Nlp} {A : Affinity} (w : world) :
  reachable w -> table_ok (db w) /\ ids_ok (db w).
Proof.
  induction 1 as [w|w file answers _ [IHt IHi]|w arg _ IH].
  - split; [apply empty_table_ok|apply empty_ids_ok].
  - split; [now apply fetch_blog_posts_table_ok|].
    destruct (fetch_blog_posts_db file answers w) as (ps & ->).
    now apply upsert_all_ids_ok.
  - now rewrite search_db.
Qed.

Lemma X9_reachable_tables_meet_the_schema_witness :
  let fetch fs :=
    fetch_blog_posts (U := ascii_unicode) (L := quiet_nlp)
      (A := digits_affinity) (file_of fs) (answers_of fs) in
  let w :=
    snd (fetch [broken_feed; healthy_feed]
           (snd (search (U := ascii_unicode) (Some (lit "storm"))
                   (snd (fetch [healthy_feed; undated_feed]
                           (snd (init_db (world_of storm_table)))))))) in
  reachable (U := ascii_unicode) (L := quiet_nlp) (A := digits_affinity) w /\
  table_ok (db w) /\ List.length (rows (db w)) = 2.
Proof.
  intros fetch w.
  assert (H : reachable (U := ascii_unicode) (L := quiet_nlp)
                (A := digits_affinity) w).
  { unfold w, fetch.
    apply after_fetch, after_search, after_fetch, after_init_db. }
  split; [exact H|]. split; [|reflexivity].
  exact (proj1 (@X9_reachable_tables_meet_the_schema ascii_unicode quiet_nlp
                  digits_affinity w H)).
Defined.

(** X10: the table a cycle leaves is the table it found with the posts it
    committed upserted one after the other, in the order of the feeds and
    of their entries.  When nothing unexpected happens these are the
    posts of all entries of the feeds not flagged bozo whose statement ran
    and committed; when the cycle is cut short they are the first of
    them. *)
Theorem X10_cycle_is_a_run_of_upserts {U : Unicode} {L : Nlp} {A : Affinity}
  (fs : list feed_run) (w : world) :
  (exists ps rest,
      committed_posts fs = ps ++ rest /\
      db (snd (fetch_feeds fs w)) = upsert_all (db w) ps) /\
  (Forall uneventful fs ->
   db (snd (fetch_feeds fs w)) = upsert_all (db w) (committed_posts fs)).
Proof.
  destruct (fetch_feeds_db fs w) as (ps & rest & Hps & Hd & Hr).
  split; [now exists ps, rest|].
  intros H. rewrite (Hr H), app_nil_r in Hps. now rewrite Hps.
Qed.

Lemma X10_cycle_is_a_run_of_upserts_witness :
  Forall (uneventful (U := ascii_unicode) (L := quiet_nlp))
         [healthy_feed; undated_feed] /\
  List.length (committed_posts (U := ascii_unicode) (L := quiet_nlp)
                 [healthy_feed; undated_feed]) = 3 /\
  db (snd (fetch_feeds (U := ascii_unicode) (L := quiet_nlp)
             (A := digits_affinity)
             [healthy_feed; undated_feed] fresh_world)) =
  upsert_all (A := digits_affinity) Store.empty
    (committed_posts (U := ascii_unicode) (L := quiet_nlp)
       [healthy_feed; undated_feed]).
Proof.
  assert (H : Forall (uneventful (U := ascii_unicode) (L := quiet_nlp))
                     [healthy_feed; undated_feed]).
  { repeat constructor; eexists; reflexivity. }
  split; [exact H|]. split; [reflexivity|].
  exact (proj2 (@X10_cycle_is_a_run_of_upserts ascii_unicode quiet_nlp
                  digits_affinity [healthy_feed; undated_feed] fresh_world)
           H).
Defined.

(** X11: a cycle never deletes a row and never moves or renumbers one.
    Whatever the feeds do, every row of the table is found after the
    cycle at the same place with the same id and the same [published_at];
    rows are only added at the end, at most one for each committed
    post. *)
Theorem X11_cycle_only_appends {U : Unicode} {L : Nlp} {A : Affinity}
  (fs : list feed_run) (w : world) :
  exists added,
    map (fun r => (row_id r, key r)) (rows (db (snd (fetch_feeds fs w))))
    = map (fun r => (row_id r, key r)) (rows (db w)) ++ added /\
    List.length added <= List.length (committed_posts fs).
Proof.
  destruct (fetch_feeds_db fs w) as (ps & rest & Hps & -> & _).
  destruct (upsert_all_keeps_places ps (db w)) as (added & Ha & Hl).
  exists added. split; [exact Ha|].
  rewrite Hps, length_app. lia.
Qed.

(** X12: fetching the same feeds again, with the same outcome for every
    entry, changes no row: after a cycle in which nothing unexpected
    happens, a second cycle over the same feeds leaves every row of the
    table as the first cycle left it. *)
Theorem X12_second_cycle_changes_no_row
  {U : Unicode} {L : Nlp} {A : Affinity}
  (fs : list feed_run) (w : world) :
  Forall uneventful fs ->
  let w1 := snd (fetch_feeds fs w) in
  rows (db (snd (fetch_feeds fs w1))) = rows (db w1).
Proof.
  intros H w1.
  destruct (fetch_feeds_db fs w1) as (ps & rest & Hps & -> & Hr).
  destruct (fetch_feeds_db fs w) as (ps0 & rest0 & Hps0 & Hd0 & Hr0).
  rewrite (Hr H), app_nil_r in Hps. rewrite (Hr0 H), app_nil_r in Hps0.
  unfold w1. rewrite Hd0, <- Hps, <- Hps0. apply upsert_all_twice.
Qed.

Lemma X12_second_cycle_changes_no_row_witness :
  let fs := [undated_feed; healthy_feed] in
  let w1 := snd (fetch_feeds (U := ascii_unicode) (L := quiet_nlp)
                   (A := digits_affinity) fs (world_of storm_table)) in
  Forall (uneventful (U := ascii_unicode) (L := quiet_nlp)) fs /\
  rows (db (snd (fetch_feeds (U := ascii_unicode) (L := quiet_nlp)
                   (A := digits_affinity) fs w1))) = rows (db w1) /\
  List.length (rows (db w1)) = 3.
Proof.
  intros fs w1.
  assert (H : Forall (uneventful (U := ascii_unicode) (L := quiet_nlp)) fs).
  { repeat constructor; eexists; reflexivity. }
  split; [exact H|]. split; [|reflexivity].
  exact (@X12_second_cycle_changes_no_row ascii_unicode quiet_nlp
           digits_affinity fs (world_of storm_table) H).
Defined.

(** X13: posts whose [published_at] values, as the column takes them,
    are new to the table and all different are all stored, as the columns
    take them and in the order they come: the table holds the old records
    followed by the new ones. *)
Theorem X13_new_keys_are_appended {A : Affinity} (ps : list Post) (t : Table) :
  NoDup (map post_key ps) ->
  (forall p, In p ps -> ~ In (post_key p) (map key (rows t))) ->
  map row_post (rows (upsert_all t ps)) =
    map row_post (rows t) ++ map stored ps /\
  List.length (rows (upsert_all t ps)) =
    List.length (rows t) + List.length ps.
Proof.
  intros Hnd Hnew.
  pose proof (upsert_all_new_keys ps t Hnd Hnew) as H.
  split; [exact H|].
  apply (f_equal (@List.length Stored)) in H.
  now rewrite length_map, length_app, !length_map in H.
Qed.

Lemma X13_new_keys_are_appended_witness :
  let ps := [sample_post "Alpha Storm" "2024";
             sample_post "Beta" "Tue, 02 Jan 2024"] in
  NoDup (map (post_key (A := digits_affinity)) ps) /\
  map row_post (rows (upsert_all (A := digits_affinity) Store.empty ps)) =
    map (stored (A := digits_affinity)) ps.
Proof.
  intros ps.
  assert (Hnd : NoDup (map (post_key (A := digits_affinity)) ps)).
  { repeat constructor; simpl; intros H;
      repeat (destruct H as [H|H]; [discriminate H|]); exact H. }
  split; [exact Hnd|].
  exact (proj1 (@X13_new_keys_are_appended digits_affinity ps Store.empty Hnd
                  (fun p _ H => H))).
Defined.

(** X14: the total a completed cycle prints is never below the number of
    rows it added, and the table never shrinks. *)
Theorem X14_total_bounds_rows_added {U : Unicode} {L : Nlp} {A : Affinity}
  (fs : list feed_run) (w : world) :
  fs <> [] ->
  Forall uneventful fs ->
  let w' := snd (fetch_feeds fs w) in
  (exists ls, out w' = out w ++ ls ++ [FetchComplete (total_count fs)]) /\
  List.length (rows (db w)) <= List.length (rows (db w')) /\
  (Z.of_nat (List.length (rows (db w'))) - Z.of_nat (List.length (rows (db w)))
   <= total_count fs)%Z.
Proof.
  intros Hne Hall w'. split.
  - unfold w'. destruct fs as [|f fs]; [contradiction|].
    rewrite fetch_feeds_cons.
    destruct (for_feeds_returns (f :: fs) 0 (printed w [StartingFetch]) Hall)
      as (Hfst & ls & Hls & _).
    destruct (for_feeds (f :: fs) 0 _) as [[t|x] w1]; simpl in Hfst, Hls;
      [|discriminate].
    injection Hfst as ->. exists ([StartingFetch] ++ ls).
    simpl. rewrite Hls. now rewrite <- !app_assoc.
  - unfold w'.
    destruct (fetch_feeds_db fs w) as (ps & rest & Hps & -> & _).
    destruct (upsert_all_keeps_places ps (db w)) as (added & Ha & Hl).
    apply (f_equal (@List.length (Z * value))) in Ha.
    rewrite length_app, !length_map in Ha.
    pose proof (committed_posts_length fs) as Hc.
    rewrite Hps, length_app in Hc. lia.
Qed.

Lemma X14_total_bounds_rows_added_witness :
  let fs := [undated_feed] in
  let w' := snd (fetch_feeds (U := ascii_unicode) (L := quiet_nlp)
                   (A := digits_affinity) fs fresh_world) in
  fs <> [] /\
  Forall (uneventful (U := ascii_unicode) (L := quiet_nlp)) fs /\
  total_count fs = 2%Z /\ List.length (rows (db w')) = 1 /\
  (Z.of_nat (List.length (rows (db w'))) - 0 <= total_count fs)%Z.
Proof.
  intros fs w'.
  assert (Hne : fs <> []) by discriminate.
  assert (H : Forall (uneventful (U := ascii_unicode) (L := quiet_nlp)) fs).
  { repeat constructor; eexists; reflexivity. }
  split; [exact Hne|]. split; [exact H|].
  split; [reflexivity|]. split; [reflexivity|].
  exact (proj2 (proj2 (@X14_total_bounds_rows_added ascii_unicode quiet_nlp
                         digits_affinity fs fresh_world Hne H))).
Defined.

(* ================================================================= *)
(** ** Search after upsert *)

(** X15: what is stored is found.  After an entry's upsert has run and
    committed, a search that the handler accepts and whose sanitized
    query is a substring of the post's title, description or categories
    (each read up to a first NUL) answers 200 and has the post, as the
    columns took it, among its results. *)
Theorem X15_stored_post_is_found {U : Unicode} {A : Affinity}
  (p : Post) (n : Z) (w : world) (query : str) :
  accepted query ->
  occurs (sanitized query) (c_str (title p)) \/
  occurs (sanitized query) (c_str (description p)) \/
  occurs (sanitized query) (c_str (categories p)) ->
  exists results,
    fst (search (Some query) (snd (upsert_entry DbOk p n w))) =
      Ok {| payload := Results results; status := 200 |} /\
    In (stored p) results.
Proof.
  intros [Hne Hlen] Hocc.
  rewrite (search_accepts (Some query) _ Hne Hlen). simpl get.
  eexists. split; [reflexivity|].
  apply select_like_In. rewrite upsert_entry_ok_db.
  pose proof (upsert_key_present (db w) p) as Hk.
  apply in_map_iff in Hk as (r & Hkey & Hr).
  exists r. split; [exact Hr|].
  pose proof (upsert_row_post (db w) p r Hr Hkey) as Hpost.
  split; [exact Hpost|].
  apply (where_like_wrap_sanitized (strip query) r). rewrite Hpost.
  unfold sanitized in Hocc.
  destruct Hocc as [H|[H|H]]; auto using occurs_occurs_like.
Qed.

Lemma X15_stored_post_is_found_witness :
  let p := sample_post "Gamma Ray" "020240103" in
  let query := lit " Ray? " in
  accepted (U := ascii_unicode) query /\
  published_at (stored (A := digits_affinity) p) =
    NumberValue (lit "20240103") /\
  exists results,
    fst (search (U := ascii_unicode) (Some query)
           (snd (upsert_entry (A := digits_affinity) DbOk p 0
                   (world_of storm_table)))) =
      Ok {| payload := Results results; status := 200 |} /\
    In (stored (A := digits_affinity) p) results.
Proof.
  intros p query.
  assert (Ha : accepted (U := ascii_unicode) query).
  { split; [vm_compute; discriminate|vm_compute; lia]. }
  split; [exact Ha|]. split; [reflexivity|].
  apply (@X15_stored_post_is_found ascii_unicode digits_affinity p 0%Z
           (world_of storm_table) query Ha).
  left. exists (lit "Gamma "), []. reflexivity.
Defined.

(* ================================================================= *)
(** ** Letter case in LIKE *)

Ltac split_comparisons :=
  repeat match goal with
         | |- context [N.leb ?a ?b] => destruct (N.leb_spec a b)
         | |- context [N.eqb ?a ?b] => destruct (N.eqb_spec a b)
         end;
  simpl in *; try reflexivity; try lia.

Lemma ascii_tolower_percent (c : char) :
  N.eqb (ascii_tolower c) percent = N.eqb c percent.
Proof.
  unfold ascii_tolower, ascii_isupper, between, percent.
  destruct (N.leb_spec 65 c); destruct (N.leb_spec c 90); simpl;
    split_comparisons.
Qed.

Lemma ascii_tolower_nul (c : char) :
  N.eqb (ascii_tolower c) 0 = N.eqb c 0.
Proof.
  unfold ascii_tolower, ascii_isupper, between.
  destruct (N.leb_spec 65 c); destruct (N.leb_spec c 90); simpl;
    split_comparisons.
Qed.

(** Folding the pattern character to lower case changes nothing. *)
Lemma like_char_fold_pattern (c d : char) :
  like_char (ascii_tolower c) d = like_char c d.
Proof.
  unfold like_char, ascii_tolower, ascii_isupper, between, is_ascii,
    underscore.
  destruct (N.leb_spec 65 c); destruct (N.leb_spec c 90); simpl;
    destruct (N.leb_spec 65 d); destruct (N.leb_spec d 90); simpl;
    split_comparisons.
Qed.

(** Two patterns that agree after folding match the same texts. *)
Lemma like_match_fold (p1 p2 t : str) :
  map ascii_tolower p1 = map ascii_tolower p2 ->
  like_match p1 t = like_match p2 t.
Proof.
  revert p2 t. induction p1 as [|c1 p1 IH]; intros [|c2 p2] t H;
    try discriminate; [reflexivity|].
  simpl in H. injection H as Hc Hp. cbn [like_match].
  rewrite <- (ascii_tolower_percent c1), <- (ascii_tolower_percent c2), Hc.
  destruct (N.eqb (ascii_tolower c2) percent).
  - clear Hc. induction t as [|d t IHt]; simpl.
    + now rewrite (IH p2 [] Hp).
    + now rewrite (IH p2 (d :: t) Hp), IHt.
  - destruct t as [|d t]; [reflexivity|].
    rewrite <- (like_char_fold_pattern c1), <- (like_char_fold_pattern c2), Hc.
    now rewrite (IH p2 t Hp).
Qed.

Lemma c_str_fold (p1 p2 : str) :
  map ascii_tolower p1 = map ascii_tolower p2 ->
  map ascii_tolower (c_str p1) = map ascii_tolower (c_str p2).
Proof.
  revert p2. induction p1 as [|c1 p1 IH]; intros [|c2 p2] H;
    try discriminate; [reflexivity|].
  simpl in H. injection H as Hc Hp. simpl.
  rewrite <- (ascii_tolower_nul c1), <- (ascii_tolower_nul c2), Hc.
  destruct (N.eqb (ascii_tolower c2) 0); [reflexivity|].
  simpl. now rewrite Hc, (IH p2 Hp).
Qed.

Lemma like_fold (text p1 p2 : str) :
  map ascii_tolower p1 = map ascii_tolower p2 ->
  like text p1 = like text p2.
Proof. intros H. unfold like. now apply like_match_fold, c_str_fold. Qed.

Lemma wrap_fold (q1 q2 : str) :
  map ascii_tolower q1 = map ascii_tolower q2 ->
  map ascii_tolower (wrap q1) = map ascii_tolower (wrap q2).
Proof. intros H. unfold wrap. simpl. now rewrite !map_app, H. Qed.

(** X16: the search does not tell upper-case from lower-case ASCII
    letters in the query.  Two queries the handler accepts whose
    sanitized forms differ only in the case of ASCII letters are answered
    with the same status and the same records. *)
Theorem X16_search_ignores_query_case {U : Unicode}
  (query1 query2 : str) (w : world) :
  accepted query1 -> accepted query2 ->
  map ascii_tolower (sanitized query1) = map ascii_tolower (sanitized query2) ->
  fst (search (Some query1) w) = fst (search (Some query2) w).
Proof.
  intros [Hne1 Hlen1] [Hne2 Hlen2] H.
  rewrite (search_accepts (Some query1) w Hne1 Hlen1).
  rewrite (search_accepts (Some query2) w Hne2 Hlen2).
  simpl get. cbn [fst].
  apply wrap_fold in H. unfold sanitized in H.
  assert (Hs : forall p1 p2,
             map ascii_tolower p1 = map ascii_tolower p2 ->
             select_like (db w) p1 p1 p1 = select_like (db w) p2 p2 p2).
  { intros p1 p2 Hp. unfold select_like. f_equal.
    apply filter_ext. intros r. unfold where_like.
    now rewrite !(like_fold _ p1 p2 Hp). }
  now rewrite (Hs _ _ H).
Qed.

Lemma X16_search_ignores_query_case_witness :
  accepted (U := ascii_unicode) (lit "storm") /\
  accepted (U := ascii_unicode) (lit "STORM") /\
  fst (search (U := ascii_unicode) (Some (lit "storm")) (world_of storm_table))
  = fst (search (U := ascii_unicode) (Some (lit "STORM"))
           (world_of storm_table)).
Proof.
  assert (H1 : accepted (U := ascii_unicode) (lit "storm")).
  { split; [vm_compute; discriminate|vm_compute; lia]. }
  assert (H2 : accepted (U := ascii_unicode) (lit "STORM")).
  { split; [vm_compute; discriminate|vm_compute; lia]. }
  split; [exact H1|]. split; [exact H2|].
  exact (@X16_search_ignores_query_case ascii_unicode
           (lit "storm") (lit "STORM") (world_of storm_table) H1 H2 eq_refl).
Defined.

(* ================================================================= *)
(** ** Narrowing a query *)

Lemma occurs_like_narrow (q1 q2 t : str) :
  occurs q2 q1 -> occurs_like q1 t -> occurs_like q2 t.
Proof.
  intros (a & b & ->) (pre & mid & suf & -> & HF).
  apply Forall2_app_inv_l in HF as (ma & rest & Ha & HF & ->).
  apply Forall2_app_inv_l in HF as (m2 & mb & H2 & Hb & ->).
  exists (pre ++ ma), m2, (mb ++ suf). split; [|exact H2].
  now rewrite <- !app_assoc.
Qed.

(** X17: a longer query never finds more.  When the sanitized form of one
    accepted query is a substring of the sanitized form of another, every
    record the longer query returns is returned by the shorter one. *)
Theorem X17_longer_query_finds_no_more {U : Unicode}
  (long short : str) (w : world) (found_long found_short : list Stored) :
  accepted long -> accepted short ->
  occurs (sanitized short) (sanitized long) ->
  fst (search (Some long) w) =
    Ok {| payload := Results found_long; status := 200 |} ->
  fst (search (Some short) w) =
    Ok {| payload := Results found_short; status := 200 |} ->
  incl found_long found_short.
Proof.
  intros [Hne1 Hlen1] [Hne2 Hlen2] Hsub.
  rewrite (search_accepts (Some long) w Hne1 Hlen1).
  rewrite (search_accepts (Some short) w Hne2 Hlen2).
  simpl. intros [= <-] [= <-] p Hin.
  apply select_like_In. apply select_like_In in Hin as (r & Hr & Hp & Hw).
  exists r. split; [exact Hr|]. split; [exact Hp|].
  apply (where_like_wrap_sanitized (strip short) r).
  apply (where_like_wrap_sanitized (strip long) r) in Hw.
  unfold sanitized in Hsub.
  destruct Hw as [H|[H|H]]; eauto using occurs_like_narrow.
Qed.

Lemma X17_longer_query_finds_no_more_witness :
  let long := lit "alpha storm" in
  let short := lit "storm" in
  let p := stored (A := digits_affinity)
             (sample_post "Alpha Storm" "Mon, 01 Jan 2024") in
  accepted (U := ascii_unicode) long /\
  accepted (U := ascii_unicode) short /\
  incl [p] [p].
Proof.
  intros long short p.
  assert (H1 : accepted (U := ascii_unicode) long).
  { split; [vm_compute; discriminate|vm_compute; lia]. }
  assert (H2 : accepted (U := ascii_unicode) short).
  { split; [vm_compute; discriminate|vm_compute; lia]. }
  split; [exact H1|]. split; [exact H2|].
  apply (@X17_longer_query_finds_no_more ascii_unicode long short
           (world_of storm_table) [p] [p] H1 H2).
  - exists (lit "alpha "), []. reflexivity.
  - reflexivity.
  - reflexivity.
Defined.

(* ================================================================= *)
(** ** Start-up and the empty cycle *)

(** X18: [init_db] starts afresh.  Whatever the table held, after
    [init_db] a search that is accepted answers 200 with no record; the
    first post upserted is the only row, has id 1 and holds the post as
    the columns take it; and after any run of upserts the counter is the
    number of upserts run, inserts and updates alike, and no id is above
    it. *)
Theorem X18_init_db_starts_afresh {U : Unicode} {A : Affinity} (w : world) :
  let w0 := snd (init_db w) in
  (forall query,
      accepted query ->
      fst (search (Some query) w0) =
        Ok {| payload := Results []; status := 200 |}) /\
  (forall p n,
      rows (db (snd (upsert_entry DbOk p n w0))) =
        [{| row_id := 1; row_post := stored p |}]) /\
  (forall ps,
      let t := upsert_all (db w0) ps in
      seq t = Z.of_nat (List.length ps) /\
      Forall (fun i => (0 < i <= Z.of_nat (List.length ps))%Z)
             (map row_id (rows t))).
Proof.
  cbv zeta. split; [|split].
  - intros query [Hne Hlen].
    now rewrite (search_accepts (Some query) _ Hne Hlen).
  - intros p n. now rewrite upsert_entry_ok_db.
  - intros ps. change (db (snd (init_db w))) with Store.empty.
    pose proof (upsert_all_seq ps Store.empty empty_ids_ok) as Hs.
    simpl in Hs. split; [exact Hs|].
    destruct (upsert_all_ids_ok ps Store.empty empty_ids_ok) as (_ & Hb & _).
    now rewrite Hs in Hb.
Qed.

Lemma X18_init_db_starts_afresh_witness :
  accepted (U := ascii_unicode) (lit "storm") /\
  fst (search (U := ascii_unicode) (Some (lit "storm"))
         (snd (init_db (world_of storm_table)))) =
    Ok {| payload := Results []; status := 200 |}.
Proof.
  assert (H : accepted (U := ascii_unicode) (lit "storm")).
  { split; [vm_compute; discriminate|vm_compute; lia]. }
  split; [exact H|].
  destruct (@X18_init_db_starts_afresh ascii_unicode digits_affinity
              (world_of storm_table)) as (Hs & _).
  exact (Hs (lit "storm") H).
Defined.

(** X19: without URLs the cycle does nothing.  When the feed file is
    missing, or holds nothing but blank lines, [read_rss_feed_urls] gives
    no URL, and [fetch_blog_posts] prints that there are none (after the
    line about the missing file, when it is missing) and returns: no feed
    is fetched, the table is left as it was and no statement is run. *)
Theorem X19_no_urls_no_cycle {U : Unicode} {L : Nlp} {A : Affinity}
  (file_path : str) (file : feed_file) (answers : nat -> parsed) (w : world) :
  file = FileNotFound \/
  (exists lines, file = FileLines lines /\ Forall all_space lines) ->
  fst (read_rss_feed_urls file_path file w) = Ok [] /\
  fetch_blog_posts file answers w =
    (Ok tt,
     printed w (match file with
                | FileNotFound => [RssFileNotFound RSS_FEED_FILE; NoFeedUrls]
                | FileLines _ | FileRaises _ => [NoFeedUrls]
                end)).
Proof.
  intros [->|(lines & -> & Hall)].
  - split; [reflexivity|apply fetch_blog_posts_not_found].
  - assert (Hu : map strip (filter (fun line => truthy (strip line)) lines)
                 = []).
    { induction Hall as [|line lines Hl _ IH]; [reflexivity|].
      simpl. now rewrite (strip_all_space line Hl). }
    split.
    + unfold read_rss_feed_urls, ret. simpl. now rewrite Hu.
    + rewrite fetch_blog_posts_lines, Hu. reflexivity.
Qed.

Lemma X19_no_urls_no_cycle_witness :
  fetch_blog_posts (U := ascii_unicode) (L := quiet_nlp)
    (A := digits_affinity) (FileLines [[32; 10]%N; [10%N]])
    (fun _ => Parsed false []) (world_of storm_table) =
  (Ok tt, printed (world_of storm_table) [NoFeedUrls]).
Proof.
  refine (proj2 (@X19_no_urls_no_cycle ascii_unicode quiet_nlp
                   digits_affinity RSS_FEED_FILE
                   (FileLines [[32; 10]%N; [10%N]])
                   (fun _ => Parsed false []) (world_of storm_table) _)).
  right. eexists. split; [reflexivity|]. repeat constructor.
Defined.

(* ================================================================= *)
(** ** The whole function and the cycle *)





